(** * quickdisorder: checking proofs of non-orderability

    A shallow embedding of [check_proof.py] and [word_problem.py].

    - Python [str] values are Rocq [string]s: the words are written with
      ASCII letters, on which [str.swapcase] and [str.upper] change the case
      of the letters and nothing else.
    - Python exceptions are the [Raise] branch of the [result] type.
    - The [networkx] digraph used by [tree_ok] is a pair of insertion-ordered
      lists (nodes, labelled edges), as the dictionaries of a [DiGraph] are.
    - The certified interval arithmetic (Sage/SnapPy) is an interface,
      [IntervalProvider]; the solver is written over any instance of it. *)

From Stdlib Require Import List Bool Arith Lia ZArith QArith Lqa Ascii String.
From Stdlib Require Import Permutation.
Import ListNotations.

Local Open Scope list_scope.
Local Open Scope string_scope.

Ltac split_ands := repeat match goal with |- _ /\ _ => split end.

(** ** Exceptions and results *)

Inductive exn : Type :=
| ValueError (msg : string)
| TypeError
| AssertionError
| NetworkXPointlessConcept.

Inductive result (A : Type) : Type :=
| Ok (a : A)
| Raise (e : exn).

Arguments Ok {A} a.
Arguments Raise {A} e.

Definition bind {A B : Type} (m : result A) (k : A -> result B) : result B :=
  match m with
  | Ok a => k a
  | Raise e => Raise e
  end.

Notation "x <- m ;; k" := (bind m (fun x => k))
  (at level 61, m at next level, right associativity).

Definition py_assert (b : bool) : result unit :=
  if b then Ok tt else Raise AssertionError.

(** [all(f(x) for x in xs)]: the generator is consumed from the left, an
    exception of [f] propagates, and the first [False] stops the iteration. *)
Fixpoint py_all {A : Type} (f : A -> result bool) (xs : list A) : result bool :=
  match xs with
  | [] => Ok true
  | x :: rest =>
      b <- f x ;;
      if b then py_all f rest else Ok false
  end.

(** The messages of the [ValueError]s the two modules raise. *)
Definition UnsupportedTopology : exn :=
  ValueError "Sorry, we do not support orbifold singularities".
Definition HolonomyNotVerified : exn :=
  ValueError "Could not verify the holonomy representation.".
Definition NoNoncommutingGens : exn :=
  ValueError "Could not verify a pair of noncommuting gens.".
Definition PrecisionInsufficient : exn :=
  ValueError "Failed to solve the word problem at this precision.".
(** What [w0, w1 = xs] raises when [xs] does not have two items. *)
Definition UnpackError : exn :=
  ValueError "wrong number of values to unpack (expected 2)".

(** ** Strings *)

Definition is_ascii_upper (c : ascii) : bool :=
  let n := nat_of_ascii c in (65 <=? n)%nat && (n <=? 90)%nat.

Definition is_ascii_lower (c : ascii) : bool :=
  let n := nat_of_ascii c in (97 <=? n)%nat && (n <=? 122)%nat.

Definition swapcase_char (c : ascii) : ascii :=
  if is_ascii_upper c then ascii_of_nat (nat_of_ascii c + 32)
  else if is_ascii_lower c then ascii_of_nat (nat_of_ascii c - 32)
  else c.

Definition upper_char (c : ascii) : ascii :=
  if is_ascii_lower c then ascii_of_nat (nat_of_ascii c - 32) else c.

(** [str.swapcase] *)
Fixpoint swapcase (s : string) : string :=
  match s with
  | EmptyString => EmptyString
  | String c r => String (swapcase_char c) (swapcase r)
  end.

(** [str.upper] *)
Fixpoint upper (s : string) : string :=
  match s with
  | EmptyString => EmptyString
  | String c r => String (upper_char c) (upper r)
  end.

(** [s[::-1]] *)
Fixpoint reversed (s : string) : string :=
  match s with
  | EmptyString => EmptyString
  | String c r => reversed r ++ String c EmptyString
  end.

(** [str.startswith] *)
Definition startswith (v p : string) : bool := String.prefix p v.

(** [''.join(xs)] *)
Definition join (xs : list string) : string := String.concat EmptyString xs.

(** [s.split('.')] for a one-character separator: never returns the empty
    list, [''.split('.')] is [['']]. *)
Fixpoint split (sep : ascii) (s : string) : list string :=
  match s with
  | EmptyString => [EmptyString]
  | String c r =>
      if Ascii.eqb c sep then EmptyString :: split sep r
      else match split sep r with
           | h :: t => String c h :: t
           | [] => [String c EmptyString]
           end
  end.

(** [v in vs] for a list or a set of strings. *)
Definition mem (v : string) (vs : list string) : bool :=
  existsb (String.eqb v) vs.

(** ** check_proof.py: words *)

Definition invert_word (word : string) : string := reversed (swapcase word).

Definition paths_to_root (claims : list (list string * list string))
  : list (list string) :=
  map fst claims.

(** ** The part of [networkx] that [tree_ok] calls

    A [DiGraph] keeps its nodes and, per node, its successors in dictionaries,
    which iterate in insertion order.  The model keeps one list of nodes and
    one list of labelled edges, both in insertion order; the successors of a
    node are the edges leaving it, in that order. *)

Module nx.

Record edge : Type := mk_edge { src : string; dst : string; label : string }.

Record DiGraph : Type := mk_graph { nodes : list string; edges : list edge }.

Definition empty : DiGraph := mk_graph [] [].

Definition add_node (T : DiGraph) (v : string) : DiGraph :=
  if mem v (nodes T) then T else mk_graph (nodes T ++ [v])%list (edges T).

Definition is_edge (u v : string) (e : edge) : bool :=
  String.eqb (src e) u && String.eqb (dst e) v.

Definition set_label (u v g : string) (e : edge) : edge :=
  if is_edge u v e then mk_edge u v g else e.

(** [T.add_edge(u, v, label=g)]: both ends become nodes, [u] first; an edge
    that is already there keeps its place and takes the new label. *)
Definition add_edge (T : DiGraph) (u v g : string) : DiGraph :=
  let T1 := add_node (add_node T u) v in
  if existsb (is_edge u v) (edges T1)
  then mk_graph (nodes T1) (map (set_label u v g) (edges T1))
  else mk_graph (nodes T1) (edges T1 ++ [mk_edge u v g])%list.

Definition out_edges (T : DiGraph) (v : string) : list edge :=
  filter (fun e => String.eqb (src e) v) (edges T).

Definition in_edges (T : DiGraph) (v : string) : list edge :=
  filter (fun e => String.eqb (dst e) v) (edges T).

Definition out_degree (T : DiGraph) (v : string) : nat :=
  List.length (out_edges T v).

Definition in_degree (T : DiGraph) (v : string) : nat :=
  List.length (in_edges T v).

(** [T.degree()[v]] of a digraph: in-degree plus out-degree. *)
Definition degree (T : DiGraph) (v : string) : nat :=
  (in_degree T v + out_degree T v)%nat.

(** [[attr['label'] for attr in T.adj[v].values()]] *)
Definition adj_labels (T : DiGraph) (v : string) : list string :=
  map label (out_edges T v).

Definition successors (T : DiGraph) (v : string) : list string :=
  map dst (out_edges T v).

(** The undirected search behind [weakly_connected_components], one edge at
    a time: an end of the edge joins [seen] when the other end is in it. *)
Definition grow_step (acc : list string) (e : edge) : list string :=
  let acc1 := if mem (src e) acc && negb (mem (dst e) acc)
              then (acc ++ [dst e])%list else acc in
  if mem (dst e) acc1 && negb (mem (src e) acc1)
  then (acc1 ++ [src e])%list else acc1.

(** One round of the search, over all the edges. *)
Definition grow (T : DiGraph) (seen : list string) : list string :=
  fold_left grow_step (edges T) seen.

Fixpoint grow_n (n : nat) (T : DiGraph) (seen : list string) : list string :=
  match n with
  | O => seen
  | S k => grow_n k T (grow T seen)
  end.

(** The weakly connected component of [v], as the nodes of [T] in it. *)
Definition component (T : DiGraph) (v : string) : list string :=
  let reached := grow_n (List.length (nodes T)) T [v] in
  filter (fun w => mem w reached) (nodes T).

Fixpoint components_from (T : DiGraph) (todo seen : list string)
  : list (list string) :=
  match todo with
  | [] => []
  | v :: rest =>
      if mem v seen then components_from T rest seen
      else let c := component T v in
           c :: components_from T rest (seen ++ c)%list
  end.

Definition weakly_connected_components (T : DiGraph) : list (list string) :=
  components_from T (nodes T) [].

(** [G.subgraph(c).number_of_edges()] *)
Definition subgraph_number_of_edges (T : DiGraph) (c : list string) : nat :=
  List.length (filter (fun e => mem (src e) c && mem (dst e) c) (edges T)).

(** [nx.is_forest]: every weakly connected component has one edge less than
    it has nodes; the graph without nodes is refused. *)
Definition is_forest (T : DiGraph) : result bool :=
  match nodes T with
  | [] => Raise NetworkXPointlessConcept
  | _ :: _ =>
      Ok (forallb
            (fun c => (List.length c - 1 =? subgraph_number_of_edges T c)%nat)
            (weakly_connected_components T))
  end.

Definition max_in_degree (T : DiGraph) : nat :=
  fold_right Nat.max O (map (in_degree T) (nodes T)).

(** [nx.is_branching]: [is_forest(G) and max(in-degrees) <= 1]. *)
Definition is_branching (T : DiGraph) : result bool :=
  f <- is_forest T ;;
  if f then Ok (max_in_degree T <=? 1)%nat else Ok false.

Definition lookup_path (paths : list (string * list string)) (v : string)
  : list string :=
  match find (fun kv => String.eqb (fst kv) v) paths with
  | Some kv => snd kv
  | None => []
  end.

(** The search reaches [w] from [v]: a node that has no path yet gets the
    path of [v], extended, and joins the next level. *)
Definition visit (v : string)
  (st : list (string * list string) * list string) (w : string)
  : list (string * list string) * list string :=
  if mem w (map fst (fst st)) then st
  else ((fst st ++ [(w, (lookup_path (fst st) v ++ [w])%list)])%list,
        (snd st ++ [w])%list).

(** One level of the breadth-first search of
    [single_source_shortest_path]. *)
Definition bfs_level (T : DiGraph) (paths : list (string * list string))
  (thislevel : list string) : list (string * list string) * list string :=
  fold_left (fun st v => fold_left (visit v) (successors T v) st)
            thislevel (paths, []).

Fixpoint bfs (fuel : nat) (T : DiGraph) (paths : list (string * list string))
  (level : list string) : list (string * list string) :=
  match fuel with
  | O => paths
  | S k =>
      match level with
      | [] => paths
      | _ :: _ =>
          let '(paths', next) := bfs_level T paths level in
          bfs k T paths' next
      end
  end.

(** [nx.single_source_shortest_path(T, source)] for a source that is a node:
    the items of the returned dictionary, in insertion order.  Every level of
    the search but the last adds a node, so the number of nodes bounds the
    number of levels. *)
Definition single_source_shortest_path (T : DiGraph) (source : string)
  : list (string * list string) :=
  bfs (S (List.length (nodes T))) T [(source, [source])] [source].

End nx.

(** The ends of the edges of a graph are among its nodes. *)
Definition ends_are_nodes (T : nx.DiGraph) : Prop :=
  forall e, In e (nx.edges T) ->
            In (nx.src e) (nx.nodes T) /\ In (nx.dst e) (nx.nodes T).

(** What a level of the search keeps true: the nodes that have a path are
    those that had one when the level started, followed by the next level;
    none is listed twice; all are nodes. *)
Definition level_inv (T : nx.DiGraph) (keys0 : list string)
  (st : list (string * list string) * list string) : Prop :=
  map fst (fst st) = (keys0 ++ snd st)%list
  /\ NoDup (map fst (fst st))
  /\ incl (map fst (fst st)) (nx.nodes T).

(** [has_arc T u v]: [v] is a successor of [u]. *)
Definition has_arc (T : nx.DiGraph) (u v : string) : Prop :=
  exists e, In e (nx.edges T) /\ nx.src e = u /\ nx.dst e = v.

(** Every edge leads from a node to the node named after it and the label. *)
Definition edges_extend (T : nx.DiGraph) : Prop :=
  forall e, In e (nx.edges T) -> nx.dst e = nx.src e ++ "." ++ nx.label e.

(** [path_ok (v, path)]: the names of the nodes of [path] are prefixes of
    [v]. *)
Definition path_ok (vp : string * list string) : bool :=
  forallb (fun p => startswith (fst vp) p) (snd vp).

(** A string without the separator of [check_proof]. *)
Fixpoint dot_free (s : string) : bool :=
  match s with
  | EmptyString => true
  | String c r => negb (Ascii.eqb c ".") && dot_free r
  end.

(** The two ends of an edge. *)
Definition edge_ends (e : nx.edge) : string * string := (nx.src e, nx.dst e).

(** ** check_proof.py: the shape of the proof tree *)

(** The body of the inner loop of [tree_ok]: one step down, along [g]. *)
Definition walk_step (st : nx.DiGraph * string) (g : string)
  : nx.DiGraph * string :=
  let '(T, vert) := st in
  let new_vert := vert ++ "." ++ g in
  (nx.add_edge T vert new_vert g, new_vert).

(** The inner loop of [tree_ok]: walk one path down from the root. *)
Definition add_path (T : nx.DiGraph) (path : list string)
  : nx.DiGraph * string :=
  fold_left walk_step path (T, "1").

(** The body of the outer loop: the path is walked and its last node joins
    [leaves]. *)
Definition build_step (st : nx.DiGraph * list string) (path : list string)
  : nx.DiGraph * list string :=
  let '(T, leaves) := st in
  let '(T', vert) := add_path T path in
  (T', (leaves ++ [vert])%list).

(** The outer loop of [tree_ok]: the graph and the list [leaves]. *)
Definition build_tree (paths : list (list string))
  : nx.DiGraph * list string :=
  fold_left build_step paths (nx.add_node nx.empty "1", ["1"]).

(** The name of the node a path leads to from [vert]. *)
Definition walk (vert : string) (path : list string) : string :=
  fold_left (fun v g => v ++ "." ++ g) path vert.

(** What the construction keeps true of the graph: the root is the first
    node, no node is listed twice, no edge enters the root, every other node
    has an edge that enters it, the ends of the edges are nodes. *)
Record tree_inv (T : nx.DiGraph) : Prop := {
  inv_root : hd_error (nx.nodes T) = Some "1";
  inv_nodup : NoDup (nx.nodes T);
  inv_dst : forall e, In e (nx.edges T) -> nx.dst e <> "1";
  inv_in : forall v, In v (nx.nodes T) ->
                     v = "1" \/ exists u, has_arc T u v;
  inv_edges : ends_are_nodes T
}.

(** The loop over [T.nodes()]: [Ok None] is an early [return False],
    [Ok (Some n)] is the loop running to its end with [leaf_count = n]. *)
Fixpoint check_degrees (T : nx.DiGraph) (leaves : list string)
  (vs : list string) (leaf_count : nat) : result (option nat) :=
  match vs with
  | [] => Ok (Some leaf_count)
  | v :: rest =>
      if mem v leaves then
        if negb (nx.degree T v =? 1)%nat then Ok None
        else check_degrees T leaves rest (leaf_count + 1)%nat
      else
        if negb (nx.degree T v =? 3)%nat then Ok None
        else
          match nx.adj_labels T v with
          | [w0; w1] =>
              if negb (String.eqb (invert_word w0) w1) then Ok None
              else check_degrees T leaves rest leaf_count
          | _ => Raise UnpackError
          end
  end.

Definition prefixes_ok (paths_from_root : list (string * list string)) : bool :=
  forallb (fun vp => forallb (fun p => startswith (fst vp) p) (snd vp))
          paths_from_root.

Definition tree_ok (claims : list (list string * list string)) : result bool :=
  let paths := paths_to_root claims in
  let '(T, leaves) := build_tree paths in
  branching <- nx.is_branching T ;;
  if negb branching then Ok false
  else
    counted <- check_degrees T leaves (nx.nodes T) 0 ;;
    match counted with
    | None => Ok false
    | Some leaf_count =>
        if negb (leaf_count =? List.length leaves)%nat then Ok false
        else Ok (prefixes_ok (nx.single_source_shortest_path T "1"))
    end.

Definition sample1_claims : list (list string * list string) :=
  [ (split "." "a.b", split "." "b.a.b.a.b.b.a.a.a.b");
    (split "." "a.B.c", split "." "a.B.c.a.a.c.c");
    (split "." "a.B.C", split "." "C.a.C.a.a.B") ].

(** ** word_problem.py: the certified arithmetic it relies on

    What the module asks of Sage and SnapPy: two-by-two matrices over the
    complex interval field with their product and trace, [SL2C_inverse],
    [contains_one]; complex intervals with a square, the subtraction of an
    integer and an absolute value, which is a real interval; real intervals
    with a sum and the comparison [<], which holds when it holds for all the
    points of the two intervals. *)

Class IntervalProvider : Type := {
  Mat : Type;
  CIF : Type;
  RIF : Type;
  mat_mul : Mat -> Mat -> Mat;
  mat_trace : Mat -> CIF;
  SL2C_inverse : Mat -> Mat;
  contains_one : Mat -> bool;
  cif_sqr : CIF -> CIF;
  cif_sub_int : CIF -> Z -> CIF;
  cif_abs : CIF -> RIF;
  rif_add : RIF -> RIF -> RIF;
  rif_lt : RIF -> RIF -> bool;
  rif_lt_int : RIF -> Z -> bool
}.

(** What SnapPy's [Manifold] gives the solver: the filling coefficients of the
    cusps (floating-point numbers, here the rationals they are) and
    [verify_hyperbolicity(..., holonomy=True)], which answers
    [(success, rho)], here [Some rho] or [None], or raises; [rho] has
    [generators()], [relators()] and is called on words. *)
Record Representation `{IntervalProvider} : Type := {
  generators : list string;
  relators : list string;
  rho_eval : string -> Mat
}.

Record Manifold `{IntervalProvider} : Type := {
  cusp_info_filling : list (Q * Q);
  verify_hyperbolicity : Z -> list Z -> result (option Representation)
}.

(** Sage's [ZZ(x)] on a floating-point number: the integer it is, or a
    [TypeError]. *)
Definition ZZ (x : Q) : result Z :=
  if (Qnum x mod Zpos (Qden x) =? 0)%Z
  then Ok (Qnum x / Zpos (Qden x))%Z
  else Raise TypeError.

Fixpoint pairs {A : Type} (xs : list A) : list (A * A) :=
  match xs with
  | [] => []
  | x :: rest => (map (fun y => (x, y)) rest ++ pairs rest)%list
  end.

Fixpoint is_manifold_fillings (fillings : list (Q * Q)) : bool :=
  match fillings with
  | [] => true
  | (a, b) :: rest =>
      match (a' <- ZZ a ;; b' <- ZZ b ;; Ok (a', b')) with
      | Raise _ => false
      | Ok (a', b') =>
          if (a' =? 0)%Z && (b' =? 0)%Z then is_manifold_fillings rest
          else if negb (Z.gcd a' b' =? 1)%Z then false
          else is_manifold_fillings rest
      end
  end.

(** A pair of filling coefficients that [is_manifold] lets through: two
    integers, both zero (the cusp is not filled) or coprime. *)
Definition cusp_passes (ab : Q * Q) : Prop :=
  exists a' b' : Z,
    fst ab == inject_Z a' /\ snd ab == inject_Z b'
    /\ ((a' = 0 /\ b' = 0) \/ Z.gcd a' b' = 1)%Z.

Section WordProblem.

Context `{IP : IntervalProvider}.

Definition is_manifold (manifold : Manifold) : bool :=
  is_manifold_fillings (cusp_info_filling manifold).

(** The builtin [min(a, b)]: [b] when [b < a], otherwise [a]. *)
Definition py_min (a b : RIF) : RIF := if rif_lt b a then b else a.

Definition jorgensens_inequality_fails (A B : Mat) : result bool :=
  let Ainv := SL2C_inverse A in
  let Binv := SL2C_inverse B in
  _ <- py_assert (contains_one (mat_mul A Ainv)
                  && contains_one (mat_mul B Binv)) ;;
  let first_term :=
    py_min (cif_abs (cif_sub_int (cif_sqr (mat_trace A)) 4))
           (cif_abs (cif_sub_int (cif_sqr (mat_trace B)) 4)) in
  let mu :=
    rif_add first_term
      (cif_abs (cif_sub_int
         (mat_trace (mat_mul (mat_mul (mat_mul A B) Ainv) Binv)) 2)) in
  Ok (rif_lt_int mu 1).

Record WordProblemSolver : Type := {
  rho : Representation;
  noncommmuting_gens : string * string;
  noncommmuting_mats : Mat * Mat
}.

Definition _find_noncommuting_gens (rho : Representation)
  : result ((string * string) * (Mat * Mat)) :=
  match find (fun gh => negb (contains_one
                 (rho_eval rho (fst gh ++ snd gh ++ upper (fst gh ++ snd gh)))))
             (pairs (generators rho)) with
  | Some (g, h) => Ok ((g, h), (rho_eval rho g, rho_eval rho h))
  | None => Raise NoNoncommutingGens
  end.

(** [WordProblemSolver.__init__] *)
Definition WordProblemSolver_init (manifold : Manifold) (bits_prec : Z)
  (fundamental_group_args : list Z) : result WordProblemSolver :=
  if negb (is_manifold manifold) then Raise UnsupportedTopology
  else
    verified <- verify_hyperbolicity manifold bits_prec
                  fundamental_group_args ;;
    match verified with
    | None => Raise HolonomyNotVerified
    | Some rho =>
        found <- _find_noncommuting_gens rho ;;
        Ok {| rho := rho;
              noncommmuting_gens := fst found;
              noncommmuting_mats := snd found |}
    end.

Definition is_nontrivial (self : WordProblemSolver) (word : string)
  : result bool :=
  let X := rho_eval (rho self) word in
  if negb (contains_one X) then Ok true
  else
    let '(A, B) := noncommmuting_mats self in
    fails_A <- jorgensens_inequality_fails X A ;;
    both <- (if fails_A then jorgensens_inequality_fails X B else Ok false) ;;
    if both then Ok false
    else Raise PrecisionInsufficient.

Definition is_trivial (self : WordProblemSolver) (word : string)
  : result bool :=
  b <- is_nontrivial self word ;;
  Ok (negb b).

(** The formula of the specification for the quantity the Jorgensen test
    compares with 1, for the ordered pair [(P, Q)]. *)
Definition jorgensen_mu (P Q : Mat) : RIF :=
  rif_add
    (py_min (cif_abs (cif_sub_int (cif_sqr (mat_trace P)) 4))
            (cif_abs (cif_sub_int (cif_sqr (mat_trace Q)) 4)))
    (cif_abs (cif_sub_int
       (mat_trace (mat_mul (mat_mul (mat_mul P Q) (SL2C_inverse P))
                           (SL2C_inverse Q))) 2)).

(** What the documentation of [jorgensens_inequality_fails] assumes of its
    two arguments shows in the code as its assertion. *)
Definition assertion_holds (P Q : Mat) : bool :=
  contains_one (mat_mul P (SL2C_inverse P))
  && contains_one (mat_mul Q (SL2C_inverse Q)).



(** ** check_proof.py: the checks that use the solver *)

(** The order in which Python iterates over [set(xs)] is not specified; it is
    a parameter, [set_iter], known only to list the elements of [xs] once
    each. *)
Definition iterates_set (set_iter : list string -> list string) : Prop :=
  forall xs, NoDup (set_iter xs) /\ forall x, In x (set_iter xs) <-> In x xs.

Variable set_iter : list string -> list string.

Definition all_nontrivial_edge_labels (solver : WordProblemSolver)
  (claims : list (list string * list string)) : result bool :=
  let edge_labels := set_iter (List.concat (paths_to_root claims)) in
  py_all (is_nontrivial solver) edge_labels.

Definition check_claim (solver : WordProblemSolver)
  (claim : list string * list string) : result bool :=
  let '(path_to_root, trivial_word) := claim in
  is_one <- is_trivial solver (join trivial_word) ;;
  let valid_words := path_to_root in
  Ok (forallb (fun t => mem t valid_words) trivial_word && is_one).

(** The proof record, as [json.loads] returns it. *)
Record ProofRecord : Type := {
  rels : list string;
  group_args : list Z;
  proof : list (string * string);
  name : string;
  gens : string
}.

Definition list_string_eqb (xs ys : list string) : bool :=
  if list_eq_dec string_dec xs ys then true else false.

(** [snappy.Manifold(name)] *)
Variable snappy_Manifold : string -> Manifold.

Definition parse_claims (p : list (string * string))
  : list (list string * list string) :=
  map (fun ab => (split "." (fst ab), split "." (snd ab))) p.

Definition check_proof (p : ProofRecord) : result bool :=
  let M := snappy_Manifold (name p) in
  solver <- WordProblemSolver_init M 100 (group_args p) ;;
  _ <- py_assert (list_string_eqb (generators (rho solver))
                    (split "." (gens p))) ;;
  _ <- py_assert (list_string_eqb (relators (rho solver)) (rels p)) ;;
  let claims := parse_claims (proof p) in
  a0 <- tree_ok claims ;;
  a1 <- all_nontrivial_edge_labels solver claims ;;
  a2 <- py_all (check_claim solver) claims ;;
  Ok (a0 && a1 && a2).

(** The part of [check_proof] before the three stages went through. *)
Definition prepared (p : ProofRecord) (solver : WordProblemSolver) : Prop :=
  WordProblemSolver_init (snappy_Manifold (name p)) 100 (group_args p)
  = Ok solver
  /\ list_string_eqb (generators (rho solver)) (split "." (gens p)) = true
  /\ list_string_eqb (relators (rho solver)) (rels p) = true.

End WordProblem.

(** ** An instance of the arithmetic: intervals with rational end points

    Exact interval arithmetic on real two-by-two matrices: every operation
    returns the smallest interval that contains the results on the points.
    It serves to run the solver on concrete matrices. *)

Module QIntervals.

Record itv : Type := mk_itv { lo : Q; hi : Q }.

Definition qmin (a b : Q) : Q := if Qle_bool a b then a else b.
Definition qmax (a b : Q) : Q := if Qle_bool a b then b else a.

Definition point (q : Q) : itv := mk_itv q q.
Definition of_Z (n : Z) : itv := point (inject_Z n).

Definition iadd (x y : itv) : itv := mk_itv (lo x + lo y) (hi x + hi y).
Definition ineg (x : itv) : itv := mk_itv (- hi x) (- lo x).
Definition isub (x y : itv) : itv := iadd x (ineg y).

Definition imul (x y : itv) : itv :=
  let a := lo x * lo y in
  let b := lo x * hi y in
  let c := hi x * lo y in
  let d := hi x * hi y in
  mk_itv (qmin (qmin a b) (qmin c d)) (qmax (qmax a b) (qmax c d)).

Definition isqr (x : itv) : itv :=
  if Qle_bool 0 (lo x) then mk_itv (lo x * lo x) (hi x * hi x)
  else if Qle_bool (hi x) 0 then mk_itv (hi x * hi x) (lo x * lo x)
  else mk_itv 0 (qmax (lo x * lo x) (hi x * hi x)).

Definition iabs (x : itv) : itv :=
  if Qle_bool 0 (lo x) then x
  else if Qle_bool (hi x) 0 then ineg x
  else mk_itv 0 (qmax (- lo x) (hi x)).

(** [x < y] holds when every point of [x] is below every point of [y]. *)
Definition ilt (x y : itv) : bool := negb (Qle_bool (lo y) (hi x)).

Definition contains (x : itv) (q : Q) : bool :=
  Qle_bool (lo x) q && Qle_bool q (hi x).

Record mat : Type := mk_mat { m00 : itv; m01 : itv; m10 : itv; m11 : itv }.

Definition mmul (x y : mat) : mat :=
  mk_mat (iadd (imul (m00 x) (m00 y)) (imul (m01 x) (m10 y)))
         (iadd (imul (m00 x) (m01 y)) (imul (m01 x) (m11 y)))
         (iadd (imul (m10 x) (m00 y)) (imul (m11 x) (m10 y)))
         (iadd (imul (m10 x) (m01 y)) (imul (m11 x) (m11 y))).

Definition mtrace (x : mat) : itv := iadd (m00 x) (m11 x).

(** [[d, -b], [-c, a]] *)
Definition minverse (x : mat) : mat :=
  mk_mat (m11 x) (ineg (m01 x)) (ineg (m10 x)) (m00 x).

Definition mcontains_one (x : mat) : bool :=
  contains (m00 x) 1 && contains (m01 x) 0
  && contains (m10 x) 0 && contains (m11 x) 1.

#[export] Instance provider : IntervalProvider := {|
  Mat := mat;
  CIF := itv;
  RIF := itv;
  mat_mul := mmul;
  mat_trace := mtrace;
  SL2C_inverse := minverse;
  contains_one := mcontains_one;
  cif_sqr := isqr;
  cif_sub_int := fun x n => isub x (of_Z n);
  cif_abs := iabs;
  rif_add := iadd;
  rif_lt := ilt;
  rif_lt_int := fun x n => ilt x (of_Z n)
|}.

(** [inside x q]: the point [q] is in the interval [x]. *)
Definition inside (x : itv) (q : Q) : Prop := lo x <= q /\ q <= hi x.

(** A matrix with rational entries. *)
Record point_mat : Type := mk_point { p00 : Q; p01 : Q; p10 : Q; p11 : Q }.

(** [mat_has M g]: the interval matrix [M] contains [g], and [g] has
    determinant 1. *)
Definition mat_has (M : mat) (g : point_mat) : Prop :=
  inside (m00 M) (p00 g) /\ inside (m01 M) (p01 g)
  /\ inside (m10 M) (p10 g) /\ inside (m11 M) (p11 g)
  /\ p00 g * p11 g - p01 g * p10 g == 1.

(** The matrix with entries [a b c d], each known up to [r]. *)
Definition ball (r : Q) (a b c d : Q) : @Mat provider :=
  let around q := mk_itv (q - r) (q + r) in
  mk_mat (around a) (around b) (around c) (around d).

(** A representation of the free group on [a] and [b]: the generators go to
    the matrices [[1,2],[0,1]] and [[1,0],[2,1]], known up to [r]; capital
    letters go to the inverses; a word goes to the product of its letters. *)
Definition letter (r : Q) (c : ascii) : mat :=
  if Ascii.eqb c "a" then ball r 1 2 0 1
  else if Ascii.eqb c "A" then minverse (ball r 1 2 0 1)
  else if Ascii.eqb c "b" then ball r 1 0 2 1
  else if Ascii.eqb c "B" then minverse (ball r 1 0 2 1)
  else ball 0 1 0 0 1.

Fixpoint eval_from (r : Q) (acc : mat) (w : string) : mat :=
  match w with
  | EmptyString => acc
  | String c rest => eval_from r (mmul acc (letter r c)) rest
  end.

Definition eval (r : Q) (w : string) : @Mat provider :=
  match w with
  | EmptyString => ball 0 1 0 0 1
  | String c rest => eval_from r (letter r c) rest
  end.

Definition free_rho (r : Q) : Representation :=
  {| generators := ["a"; "b"];
     relators := [];
     rho_eval := eval r |}.

(** The solver on [free_rho r], with the two generators as anchors. *)
Definition free_solver (r : Q) : WordProblemSolver :=
  {| rho := free_rho r;
     noncommmuting_gens := ("a", "b");
     noncommmuting_mats := (eval r "a", eval r "b") |}.

Definition free_manifold (r : Q) (fillings : list (Q * Q)) : Manifold :=
  {| cusp_info_filling := fillings;
     verify_hyperbolicity := fun _ _ => Ok (Some (free_rho r)) |}.

(** A proof record over the free group: two claims with the same path, the
    first with a token, "A", that is not on its path. *)
Definition free_record : ProofRecord :=
  {| rels := [];
     group_args := [1; 1; 0]%Z;
     proof := [("a", "A.a"); ("a", "a")];
     name := "free";
     gens := "a.b" |}.

(** An order of iteration over a set: every element once, in the order of
    the last occurrences. *)
Definition listed_once (xs : list string) : list string :=
  nodup string_dec xs.

End QIntervals.

(** ** Theorems *)

(** *** Words *)

Lemma swapcase_char_involutive (c : ascii) :
  swapcase_char (swapcase_char c) = c.
Proof.
  destruct c as [[] [] [] [] [] [] [] []]; reflexivity.
Qed.

Lemma swapcase_app (s t : string) :
  swapcase (s ++ t) = swapcase s ++ swapcase t.
Proof.
  induction s as [|c s IH]; simpl; [reflexivity | now rewrite IH].
Qed.

Lemma string_app_nil_r (s : string) : s ++ EmptyString = s.
Proof.
  induction s as [|c s IH]; simpl; [reflexivity | now rewrite IH].
Qed.

Lemma string_app_assoc (s t u : string) : (s ++ t) ++ u = s ++ (t ++ u).
Proof.
  induction s as [|c s IH]; simpl; [reflexivity | now rewrite IH].
Qed.

Lemma reversed_app (s t : string) :
  reversed (s ++ t) = reversed t ++ reversed s.
Proof.
  induction s as [|c s IH]; simpl.
  - now rewrite string_app_nil_r.
  - now rewrite IH, string_app_assoc.
Qed.

Lemma reversed_involutive (s : string) : reversed (reversed s) = s.
Proof.
  induction s as [|c s IH]; simpl; [reflexivity|].
  now rewrite reversed_app, IH.
Qed.

Lemma swapcase_reversed (s : string) :
  swapcase (reversed s) = reversed (swapcase s).
Proof.
  induction s as [|c s IH]; simpl; [reflexivity|].
  now rewrite swapcase_app, IH.
Qed.

Lemma swapcase_involutive (s : string) : swapcase (swapcase s) = s.
Proof.
  induction s as [|c s IH]; simpl; [reflexivity|].
  now rewrite swapcase_char_involutive, IH.
Qed.

Lemma length_app_string (s t : string) :
  String.length (s ++ t) = (String.length s + String.length t)%nat.
Proof.
  induction s as [|c s IH]; simpl; [reflexivity | now rewrite IH].
Qed.

Lemma length_reversed (s : string) :
  String.length (reversed s) = String.length s.
Proof.
  induction s as [|c s IH]; simpl; [reflexivity|].
  rewrite length_app_string, IH. simpl. lia.
Qed.

Lemma length_swapcase (s : string) :
  String.length (swapcase s) = String.length s.
Proof.
  induction s as [|c s IH]; simpl; [reflexivity | now rewrite IH].
Qed.

Lemma get_swapcase (s : string) :
  forall i, String.get i (swapcase s)
            = option_map swapcase_char (String.get i s).
Proof.
  induction s as [|c s IH]; intros [|i]; simpl; auto.
Qed.

Lemma get_reversed (s : string) :
  forall i, (i < String.length s)%nat ->
            String.get i (reversed s)
            = String.get (String.length s - 1 - i) s.
Proof.
  induction s as [|c s IH]; intros i Hi; simpl in *; [lia|].
  destruct (Nat.eq_dec i (String.length s)) as [-> | Hne].
  - replace (String.length s - 0 - String.length s)%nat with 0%nat by lia.
    rewrite <- (length_reversed s) at 1.
    change (String.length (reversed s))
      with (0 + String.length (reversed s))%nat.
    now rewrite <- append_correct2.
  - rewrite <- append_correct1 by (rewrite length_reversed; lia).
    rewrite IH by lia.
    replace (String.length s - 0 - i)%nat
      with (S (String.length s - 1 - i)) by lia.
    reflexivity.
Qed.

Lemma swapcase_char_flips (c : ascii) :
  is_ascii_lower (swapcase_char c) = is_ascii_upper c
  /\ is_ascii_upper (swapcase_char c) = is_ascii_lower c
  /\ upper_char (swapcase_char c) = upper_char c.
Proof.
  destruct c as [[] [] [] [] [] [] [] []]; repeat split.
Qed.

(** C9: [invert_word] reverses the order of the letters and flips the case
    of each of them: the word keeps its length, the letter at position [i]
    of the result is the letter at position [i] from the end, with its case
    swapped, and swapping the case turns a lower-case letter into the
    upper-case one and back.  It is an involution on every word, and it
    sends "a" to "A" and "ab" to "BA". *)
Theorem invert_word_involution :
  (forall w, String.length (invert_word w) = String.length w)
  /\ (forall w i,
        (i < String.length w)%nat ->
        String.get i (invert_word w)
        = option_map swapcase_char (String.get (String.length w - 1 - i) w))
  /\ (forall c,
        is_ascii_lower (swapcase_char c) = is_ascii_upper c
        /\ is_ascii_upper (swapcase_char c) = is_ascii_lower c
        /\ upper_char (swapcase_char c) = upper_char c)
  /\ (forall w, invert_word (invert_word w) = w)
  /\ invert_word "a" = "A"
  /\ invert_word "ab" = "BA".
Proof.
  unfold invert_word. split_ands; try reflexivity.
  - intros w. now rewrite length_reversed, length_swapcase.
  - intros w i Hi. rewrite get_reversed by (now rewrite length_swapcase).
    now rewrite length_swapcase, get_swapcase.
  - apply swapcase_char_flips.
  - intros w.
    now rewrite swapcase_reversed, reversed_involutive, swapcase_involutive.
Qed.

(** *** The graph operations *)

Lemma mem_In (v : string) (vs : list string) :
  mem v vs = true <-> In v vs.
Proof.
  unfold mem. rewrite existsb_exists. split.
  - intros [x [Hin Heq]]. apply String.eqb_eq in Heq. now subst.
  - intros Hin. exists v. split; [assumption | apply String.eqb_refl].
Qed.

Lemma mem_false_not_In (v : string) (vs : list string) :
  mem v vs = false <-> ~ In v vs.
Proof.
  rewrite <- mem_In. destruct (mem v vs); split; congruence.
Qed.

Lemma add_node_edges (T : nx.DiGraph) (v : string) :
  nx.edges (nx.add_node T v) = nx.edges T.
Proof.
  unfold nx.add_node. now destruct (mem v (nx.nodes T)).
Qed.

Lemma add_node_In (T : nx.DiGraph) (v w : string) :
  In w (nx.nodes (nx.add_node T v)) <-> In w (nx.nodes T) \/ w = v.
Proof.
  unfold nx.add_node. destruct (mem v (nx.nodes T)) eqn:Hm; simpl.
  - apply mem_In in Hm. split; [tauto|]. intros [H | ->]; assumption.
  - rewrite in_app_iff. simpl. intuition (subst; auto).
Qed.

Lemma add_node_hd (T : nx.DiGraph) (v r : string) :
  hd_error (nx.nodes T) = Some r ->
  hd_error (nx.nodes (nx.add_node T v)) = Some r.
Proof.
  unfold nx.add_node. destruct (mem v (nx.nodes T)); simpl; [easy|].
  destruct (nx.nodes T); simpl; [discriminate | easy].
Qed.

Lemma add_node_NoDup (T : nx.DiGraph) (v : string) :
  NoDup (nx.nodes T) -> NoDup (nx.nodes (nx.add_node T v)).
Proof.
  intros Hnd. unfold nx.add_node.
  destruct (mem v (nx.nodes T)) eqn:Hm; simpl; [assumption|].
  apply mem_false_not_In in Hm.
  apply NoDup_app; [assumption | repeat constructor; simpl; tauto |].
  intros x Hx [<- | []]. contradiction.
Qed.

Lemma add_edge_nodes (T : nx.DiGraph) (u v g : string) :
  nx.nodes (nx.add_edge T u v g) = nx.nodes (nx.add_node (nx.add_node T u) v).
Proof.
  unfold nx.add_edge.
  now destruct (existsb _ (nx.edges (nx.add_node (nx.add_node T u) v))).
Qed.

Lemma add_edge_In_edges (T : nx.DiGraph) (u v g : string) (e : nx.edge) :
  In e (nx.edges (nx.add_edge T u v g)) ->
  In e (nx.edges T) \/ e = nx.mk_edge u v g.
Proof.
  unfold nx.add_edge. rewrite !add_node_edges.
  destruct (existsb (nx.is_edge u v) (nx.edges T)); simpl.
  - rewrite in_map_iff. intros [e0 [<- Hin]]. unfold nx.set_label.
    destruct (nx.is_edge u v e0); auto.
  - rewrite in_app_iff. simpl. intros [H | [<- | []]]; auto.
Qed.

Lemma is_edge_true (u v : string) (e : nx.edge) :
  nx.is_edge u v e = true <-> nx.src e = u /\ nx.dst e = v.
Proof.
  unfold nx.is_edge. rewrite andb_true_iff, !String.eqb_eq. tauto.
Qed.

Lemma add_edge_has_arc (T : nx.DiGraph) (u v g : string) :
  has_arc (nx.add_edge T u v g) u v.
Proof.
  unfold nx.add_edge, has_arc. rewrite !add_node_edges.
  destruct (existsb (nx.is_edge u v) (nx.edges T)) eqn:Hex; simpl.
  - apply existsb_exists in Hex. destruct Hex as [e0 [Hin He]].
    exists (nx.set_label u v g e0). split.
    + now apply in_map.
    + unfold nx.set_label. rewrite He. simpl. auto.
  - exists (nx.mk_edge u v g). rewrite in_app_iff. simpl. auto.
Qed.

Lemma add_edge_keeps_arc (T : nx.DiGraph) (u v g a b : string) :
  has_arc T a b -> has_arc (nx.add_edge T u v g) a b.
Proof.
  intros [e [Hin [Hs Hd]]]. unfold nx.add_edge, has_arc.
  rewrite !add_node_edges.
  destruct (existsb (nx.is_edge u v) (nx.edges T)); simpl.
  - exists (nx.set_label u v g e). split; [now apply in_map|].
    unfold nx.set_label. destruct (nx.is_edge u v e) eqn:He; [|auto].
    apply is_edge_true in He. simpl. destruct He; split; congruence.
  - exists e. rewrite in_app_iff. auto.
Qed.


(** *** The searches do not run out of fuel *)

Lemma grow_step_cases (acc : list string) (e : nx.edge) :
  (nx.grow_step acc e = acc /\ mem (nx.src e) acc = mem (nx.dst e) acc)
  \/ (exists x, nx.grow_step acc e = (acc ++ [x])%list /\ ~ In x acc
                /\ (x = nx.src e \/ x = nx.dst e)).
Proof.
  unfold nx.grow_step.
  destruct (mem (nx.src e) acc) eqn:Hs, (mem (nx.dst e) acc) eqn:Hd; simpl.
  - rewrite Hs, Hd. simpl. now left.
  - right. exists (nx.dst e).
    assert (H1 : mem (nx.dst e) (acc ++ [nx.dst e])%list = true).
    { apply mem_In, in_app_iff. right. now left. }
    assert (H2 : mem (nx.src e) (acc ++ [nx.dst e])%list = true).
    { apply mem_In, in_app_iff. left. now apply mem_In. }
    rewrite H1, H2. simpl. split_ands; auto. now apply mem_false_not_In.
  - rewrite Hs, Hd. simpl. right. exists (nx.src e). split_ands; auto.
    now apply mem_false_not_In.
  - rewrite Hs, Hd. simpl. now left.
Qed.

Lemma grow_steps_extend (es : list nx.edge) :
  forall acc, exists l, fold_left nx.grow_step es acc = (acc ++ l)%list.
Proof.
  induction es as [|e es IH]; intros acc; simpl.
  - exists []. now rewrite app_nil_r.
  - destruct (IH (nx.grow_step acc e)) as [l Hl]. rewrite Hl.
    destruct (grow_step_cases acc e) as [[-> _] | [x [-> _]]].
    + now exists l.
    + exists (x :: l). now rewrite <- app_assoc.
Qed.

Lemma grow_steps_keep (nodes : list string) (es : list nx.edge) :
  (forall e, In e es -> In (nx.src e) nodes /\ In (nx.dst e) nodes) ->
  forall acc, NoDup acc -> incl acc nodes ->
              NoDup (fold_left nx.grow_step es acc)
              /\ incl (fold_left nx.grow_step es acc) nodes.
Proof.
  induction es as [|e es IH]; intros Hends acc Hnd Hincl; simpl; [auto|].
  apply IH.
  - intros e' He'. apply Hends. now right.
  - destruct (grow_step_cases acc e) as [[-> _] | [x [-> [Hx _]]]]; auto.
    apply NoDup_app; [assumption | repeat constructor; simpl; tauto |].
    intros y Hy [<- | []]. contradiction.
  - destruct (grow_step_cases acc e) as [[-> _] | [x [-> [_ Hx]]]]; auto.
    intros y Hy. apply in_app_iff in Hy. destruct Hy as [Hy | [<- | []]].
    + now apply Hincl.
    + destruct (Hends e (or_introl eq_refl)). destruct Hx as [-> | ->]; auto.
Qed.

Lemma app_eq_self {A : Type} (l m : list A) : (l ++ m)%list = l -> m = [].
Proof.
  intros H. apply (f_equal (@List.length A)) in H. rewrite length_app in H.
  destruct m; [reflexivity | simpl in H; lia].
Qed.

Lemma grow_steps_fixed (es : list nx.edge) :
  forall acc, fold_left nx.grow_step es acc = acc ->
              forall e, In e es -> mem (nx.src e) acc = mem (nx.dst e) acc.
Proof.
  induction es as [|e es IH]; intros acc Hfix e' He'; [destruct He'|].
  simpl in Hfix.
  destruct (grow_step_cases acc e) as [[Heq Hmem] | [x [Heq _]]].
  - rewrite Heq in Hfix. destruct He' as [<- | He']; [assumption|].
    now apply IH.
  - exfalso. rewrite Heq in Hfix.
    destruct (grow_steps_extend es (acc ++ [x])%list) as [l Hl].
    rewrite Hl, <- app_assoc in Hfix. apply app_eq_self in Hfix.
    discriminate.
Qed.

Lemma grow_n_fixed (T : nx.DiGraph) (n : nat) (seen : list string) :
  nx.grow T seen = seen -> nx.grow_n n T seen = seen.
Proof.
  intros H. induction n as [|n IH]; simpl; [reflexivity|]. now rewrite H.
Qed.

Lemma grow_n_progress (T : nx.DiGraph) :
  ends_are_nodes T ->
  forall n seen,
    NoDup seen -> incl seen (nx.nodes T) ->
    NoDup (nx.grow_n n T seen) /\ incl (nx.grow_n n T seen) (nx.nodes T)
    /\ (nx.grow T (nx.grow_n n T seen) = nx.grow_n n T seen
        \/ (List.length seen + n <= List.length (nx.grow_n n T seen))%nat).
Proof.
  intros Hends. induction n as [|n IH]; intros seen Hnd Hincl; simpl.
  - split_ands; auto. right. lia.
  - destruct (grow_steps_keep (nx.nodes T) (nx.edges T) Hends seen Hnd Hincl)
      as [Hnd' Hincl'].
    fold (nx.grow T seen) in Hnd', Hincl'.
    destruct (IH (nx.grow T seen) Hnd' Hincl') as (H1 & H2 & H3).
    split_ands; auto.
    destruct H3 as [H3 | H3]; [now left|].
    destruct (grow_steps_extend (nx.edges T) seen) as [l Hl].
    fold (nx.grow T seen) in Hl.
    destruct l as [|x l].
    + left. rewrite app_nil_r in Hl.
      rewrite Hl, (grow_n_fixed T n seen Hl). exact Hl.
    + right. rewrite Hl in H3 at 1. rewrite length_app in H3. simpl in H3.
      lia.
Qed.

(** The set [component] filters the nodes with is closed under the edges,
    followed in either direction: more rounds would add nothing. *)
Lemma component_search_complete (T : nx.DiGraph) (v : string) :
  ends_are_nodes T -> In v (nx.nodes T) ->
  let reached := nx.grow_n (List.length (nx.nodes T)) T [v] in
  nx.grow T reached = reached
  /\ In v reached
  /\ forall e, In e (nx.edges T) ->
               mem (nx.src e) reached = mem (nx.dst e) reached.
Proof.
  intros Hends Hv reached.
  assert (Hnd : NoDup [v]) by (repeat constructor; simpl; tauto).
  assert (Hincl : incl [v] (nx.nodes T)) by (intros x [<- | []]; assumption).
  destruct (grow_n_progress T Hends (List.length (nx.nodes T)) [v] Hnd Hincl)
    as (H1 & H2 & H3).
  fold reached in H1, H2, H3.
  assert (Hfix : nx.grow T reached = reached).
  { destruct H3 as [H3 | H3]; [assumption|]. exfalso.
    pose proof (NoDup_incl_length H1 H2) as Hlen. simpl in H3. lia. }
  split_ands; auto.
  - clear -reached. unfold reached.
    generalize (List.length (nx.nodes T)). intros n.
    assert (Hgen : forall seen, In v seen -> In v (nx.grow_n n T seen)).
    { induction n as [|n IH]; intros seen Hin; simpl; [assumption|].
      apply IH. destruct (grow_steps_extend (nx.edges T) seen) as [l Hl].
      unfold nx.grow. rewrite Hl. apply in_app_iff. now left. }
    apply Hgen. now left.
  - now apply grow_steps_fixed.
Qed.

Lemma successors_are_nodes (T : nx.DiGraph) (v w : string) :
  ends_are_nodes T -> In w (nx.successors T v) -> In w (nx.nodes T).
Proof.
  intros Hends Hw. unfold nx.successors, nx.out_edges in Hw.
  apply in_map_iff in Hw. destruct Hw as [e [<- He]].
  apply filter_In in He. now apply Hends.
Qed.

Lemma visit_level_inv (T : nx.DiGraph) (keys0 : list string) (v w : string)
  (st : list (string * list string) * list string) :
  In w (nx.nodes T) -> level_inv T keys0 st ->
  level_inv T keys0 (nx.visit v st w).
Proof.
  intros Hw (Hkeys & Hnd & Hincl). unfold nx.visit.
  destruct (mem w (map fst (fst st))) eqn:Hm; [now split_ands|].
  apply mem_false_not_In in Hm. unfold level_inv. simpl.
  rewrite map_app. simpl. split_ands.
  - now rewrite Hkeys, app_assoc.
  - apply NoDup_app; [assumption | repeat constructor; simpl; tauto |].
    intros y Hy [<- | []]. contradiction.
  - intros y Hy. apply in_app_iff in Hy. destruct Hy as [Hy | [<- | []]]; auto.
Qed.

Lemma bfs_level_inv (T : nx.DiGraph) (paths : list (string * list string))
  (level : list string) :
  ends_are_nodes T ->
  NoDup (map fst paths) -> incl (map fst paths) (nx.nodes T) ->
  level_inv T (map fst paths) (nx.bfs_level T paths level).
Proof.
  intros Hends Hnd Hincl. unfold nx.bfs_level.
  assert (H0 : level_inv T (map fst paths) (paths, [])).
  { unfold level_inv. simpl. rewrite app_nil_r. auto. }
  revert H0. generalize (paths, @nil string). generalize (map fst paths).
  intros keys0. induction level as [|v level IH]; intros st Hst; simpl; auto.
  apply IH.
  assert (Hsucc : forall w, In w (nx.successors T v) -> In w (nx.nodes T)).
  { intros w. now apply successors_are_nodes. }
  revert st Hst Hsucc. generalize (nx.successors T v).
  intros ws. induction ws as [|w ws IHw]; intros st Hst Hsucc; simpl; auto.
  apply IHw.
  - apply visit_level_inv; [apply Hsucc; now left | assumption].
  - intros w' Hw'. apply Hsucc. now right.
Qed.

Lemma bfs_nil (f : nat) (T : nx.DiGraph)
  (paths : list (string * list string)) :
  nx.bfs f T paths [] = paths.
Proof.
  now destruct f.
Qed.

Lemma bfs_fuel (T : nx.DiGraph) :
  ends_are_nodes T ->
  forall f paths level k,
    NoDup (map fst paths) -> incl (map fst paths) (nx.nodes T) ->
    (List.length (nx.nodes T) + 1 <= f + List.length (map fst paths))%nat ->
    nx.bfs (f + k) T paths level = nx.bfs f T paths level.
Proof.
  intros Hends. induction f as [|f IH]; intros paths level k Hnd Hincl Hf.
  - pose proof (NoDup_incl_length Hnd Hincl). lia.
  - simpl. destruct level as [|v level]; [reflexivity|].
    pose proof (bfs_level_inv T paths (v :: level) Hends Hnd Hincl)
      as (Hkeys & Hnd' & Hincl').
    destruct (nx.bfs_level T paths (v :: level)) as [paths' next].
    simpl in Hkeys, Hnd', Hincl'.
    destruct next as [|w next]; [now rewrite !bfs_nil|].
    apply IH; auto.
    rewrite Hkeys, length_app. simpl. lia.
Qed.

(** [single_source_shortest_path] has all the fuel it can use: with more,
    the search returns the same paths. *)
Lemma shortest_paths_search_complete (T : nx.DiGraph) (source : string)
  (k : nat) :
  ends_are_nodes T -> In source (nx.nodes T) ->
  nx.bfs (S (List.length (nx.nodes T)) + k) T [(source, [source])] [source]
  = nx.single_source_shortest_path T source.
Proof.
  intros Hends Hs. unfold nx.single_source_shortest_path.
  apply bfs_fuel; simpl.
  - assumption.
  - repeat constructor. simpl. tauto.
  - intros x [<- | []]. assumption.
  - lia.
Qed.

(** *** The construction of the tree *)

Lemma child_name_not_root (vert g : string) : vert ++ "." ++ g <> "1".
Proof.
  destruct vert as [|c [|c' r]]; simpl; discriminate.
Qed.

Lemma tree_inv_root_In (T : nx.DiGraph) : tree_inv T -> In "1" (nx.nodes T).
Proof.
  intros [Hr _ _ _ _]. destruct (nx.nodes T); simpl in *; [discriminate|].
  injection Hr as ->. now left.
Qed.

Lemma tree_inv_init : tree_inv (nx.add_node nx.empty "1").
Proof.
  split; simpl.
  - reflexivity.
  - repeat constructor. simpl. tauto.
  - intros e [].
  - intros v [<- | []]. now left.
  - intros e [].
Qed.

Lemma add_edge_tree_inv (T : nx.DiGraph) (vert g : string) :
  tree_inv T -> In vert (nx.nodes T) ->
  tree_inv (nx.add_edge T vert (vert ++ "." ++ g) g)
  /\ In (vert ++ "." ++ g) (nx.nodes (nx.add_edge T vert (vert ++ "." ++ g) g)).
Proof.
  intros [Hr Hn Hd Hi Hends] Hvert. split; [split|].
  - rewrite add_edge_nodes. now apply add_node_hd, add_node_hd.
  - rewrite add_edge_nodes. now apply add_node_NoDup, add_node_NoDup.
  - intros e He. apply add_edge_In_edges in He. destruct He as [He | ->].
    + now apply Hd.
    + simpl. apply child_name_not_root.
  - intros v Hv. rewrite add_edge_nodes, !add_node_In in Hv.
    destruct Hv as [[Hv | ->] | ->].
    + destruct (Hi v Hv) as [-> | [u Hu]]; [now left|].
      right. exists u. now apply add_edge_keeps_arc.
    + destruct (Hi vert Hvert) as [-> | [u Hu]]; [now left|].
      right. exists u. now apply add_edge_keeps_arc.
    + right. exists vert. apply add_edge_has_arc.
  - intros e Hin. rewrite add_edge_nodes, !add_node_In.
    apply add_edge_In_edges in Hin. destruct Hin as [Hin | ->].
    + destruct (Hends e Hin). auto.
    + simpl. auto.
  - rewrite add_edge_nodes, !add_node_In. now right.
Qed.

Lemma add_edge_keeps_nodes (T : nx.DiGraph) (u v g w : string) :
  In w (nx.nodes T) -> In w (nx.nodes (nx.add_edge T u v g)).
Proof.
  intros H. rewrite add_edge_nodes, !add_node_In. auto.
Qed.

Lemma walk_steps (path : list string) :
  forall (T : nx.DiGraph) (vert : string),
    tree_inv T -> In vert (nx.nodes T) ->
    let T' := fst (fold_left walk_step path (T, vert)) in
    let v' := snd (fold_left walk_step path (T, vert)) in
    tree_inv T' /\ In v' (nx.nodes T') /\ v' = walk vert path
    /\ (forall a b, has_arc T a b -> has_arc T' a b)
    /\ (forall w, In w (nx.nodes T) -> In w (nx.nodes T'))
    /\ (forall g rest, path = g :: rest -> has_arc T' vert (vert ++ "." ++ g)).
Proof.
  induction path as [|g path IH]; intros T vert HT Hvert; simpl.
  - split_ands; auto. discriminate.
  - destruct (add_edge_tree_inv T vert g HT Hvert) as [HT1 Hv1].
    specialize (IH _ _ HT1 Hv1). simpl in IH.
    destruct IH as (HT' & Hv' & Hw & Harc & Hnodes & _).
    split_ands; auto.
    + intros a b Hab. now apply Harc, add_edge_keeps_arc.
    + intros w Hw'. now apply Hnodes, add_edge_keeps_nodes.
    + intros g0 rest Heq. injection Heq as <- <-.
      apply Harc, add_edge_has_arc.
Qed.

Lemma build_steps (paths : list (list string)) :
  forall (T : nx.DiGraph) (leaves : list string),
    tree_inv T -> (forall x, In x leaves -> In x (nx.nodes T)) ->
    let T' := fst (fold_left build_step paths (T, leaves)) in
    let leaves' := snd (fold_left build_step paths (T, leaves)) in
    tree_inv T'
    /\ leaves' = (leaves ++ map (walk "1") paths)%list
    /\ (forall x, In x leaves' -> In x (nx.nodes T'))
    /\ (forall a b, has_arc T a b -> has_arc T' a b)
    /\ (forall g rest, In (g :: rest) paths -> has_arc T' "1" ("1" ++ "." ++ g)).
Proof.
  induction paths as [|path paths IH]; intros T leaves HT Hleaves; simpl.
  - rewrite app_nil_r. split_ands; auto. intros g rest [].
  - unfold add_path.
    pose proof (walk_steps path T "1" HT (tree_inv_root_In T HT)) as Hw.
    simpl in Hw.
    destruct (fold_left walk_step path (T, "1")) as [T1 v1]. simpl in Hw.
    destruct Hw as (HT1 & Hv1 & Hname & Harc1 & Hnodes1 & Hfirst).
    assert (Hleaves1 : forall x, In x (leaves ++ [v1])%list ->
                                 In x (nx.nodes T1)).
    { intros x Hx. apply in_app_iff in Hx. destruct Hx as [Hx | [<- | []]].
      - now apply Hnodes1, Hleaves.
      - assumption. }
    specialize (IH T1 (leaves ++ [v1])%list HT1 Hleaves1). simpl in IH.
    destruct IH as (HT' & Hl' & Hin' & Harc' & Hfirst').
    split_ands; auto.
    + rewrite Hl', Hname, <- app_assoc. reflexivity.
    + intros g rest [Heq | Hin].
      * apply Harc'. now apply (Hfirst g rest).
      * now apply (Hfirst' g rest).
Qed.

Lemma build_tree_spec (paths : list (list string)) :
  let T := fst (build_tree paths) in
  let leaves := snd (build_tree paths) in
  tree_inv T
  /\ leaves = "1" :: map (walk "1") paths
  /\ (forall x, In x leaves -> In x (nx.nodes T))
  /\ (forall g rest, In (g :: rest) paths -> has_arc T "1" ("1" ++ "." ++ g)).
Proof.
  unfold build_tree.
  pose proof (build_steps paths (nx.add_node nx.empty "1") ["1"]
                tree_inv_init) as H.
  simpl in H. destruct H as (HT & Hl & Hin & _ & Hfirst).
  - intros x [<- | []]. now left.
  - simpl. split_ands; auto.
Qed.

(** On the graph [tree_ok] builds, both searches run to their end. *)
Lemma build_tree_searches_complete (paths : list (list string)) :
  let T := fst (build_tree paths) in
  (forall v, In v (nx.nodes T) ->
     nx.grow T (nx.grow_n (List.length (nx.nodes T)) T [v])
     = nx.grow_n (List.length (nx.nodes T)) T [v])
  /\ (forall k,
        nx.bfs (S (List.length (nx.nodes T)) + k) T [("1", ["1"])] ["1"]
        = nx.single_source_shortest_path T "1").
Proof.
  destruct (build_tree_spec paths) as (HT & _). simpl. split.
  - intros v Hv.
    apply (component_search_complete _ v (inv_edges _ HT) Hv).
  - intros k. apply shortest_paths_search_complete.
    + apply (inv_edges _ HT).
    + now apply tree_inv_root_In.
Qed.

(** *** Degrees *)

Lemma root_in_degree (T : nx.DiGraph) :
  tree_inv T -> nx.in_degree T "1" = 0%nat.
Proof.
  intros [_ _ Hd _ _]. unfold nx.in_degree, nx.in_edges.
  induction (nx.edges T) as [|e es IH]; simpl; [reflexivity|].
  destruct (String.eqb (nx.dst e) "1") eqn:He.
  - apply String.eqb_eq in He. exfalso. apply (Hd e); [now left | assumption].
  - apply IH. intros e' He'. apply Hd. now right.
Qed.

Lemma in_degree_pos (T : nx.DiGraph) (v : string) :
  tree_inv T -> In v (nx.nodes T) -> v <> "1" -> (1 <= nx.in_degree T v)%nat.
Proof.
  intros [_ _ _ Hi _] Hv Hne. destruct (Hi v Hv) as [-> | [u [e [Hin [_ Hd]]]]].
  - contradiction.
  - unfold nx.in_degree, nx.in_edges.
    assert (Hf : In e (filter (fun e0 => String.eqb (nx.dst e0) v) (nx.edges T))).
    { apply filter_In. split; [assumption | now apply String.eqb_eq]. }
    destruct (filter _ (nx.edges T)); simpl in *; [contradiction | lia].
Qed.

Lemma in_degree_le_max (T : nx.DiGraph) (v : string) :
  In v (nx.nodes T) -> (nx.in_degree T v <= nx.max_in_degree T)%nat.
Proof.
  unfold nx.max_in_degree. induction (nx.nodes T) as [|w ws IH]; simpl.
  - intros [].
  - intros [-> | Hin]; [lia | specialize (IH Hin); lia].
Qed.

Lemma adj_labels_length (T : nx.DiGraph) (v : string) :
  List.length (nx.adj_labels T v) = nx.out_degree T v.
Proof.
  unfold nx.adj_labels, nx.out_degree. apply length_map.
Qed.

(** The loop over the nodes never fails to unpack the two labels: a node
    with total degree 3 that is not the root has one edge in and two out. *)
Lemma check_degrees_total (T : nx.DiGraph) (leaves : list string) :
  tree_inv T -> (nx.max_in_degree T <= 1)%nat -> In "1" leaves ->
  forall vs, incl vs (nx.nodes T) ->
  forall n, exists r, check_degrees T leaves vs n = Ok r.
Proof.
  intros HT Hmax Hroot vs. induction vs as [|v vs IH]; intros Hincl n; simpl.
  - eauto.
  - assert (Hv : In v (nx.nodes T)) by (apply Hincl; now left).
    assert (Hvs : incl vs (nx.nodes T)).
    { intros x Hx. apply Hincl. now right. }
    destruct (mem v leaves) eqn:Hm.
    + destruct (nx.degree T v =? 1)%nat; simpl; eauto.
    + destruct (nx.degree T v =? 3)%nat eqn:Hdeg; simpl; [|eauto].
      apply Nat.eqb_eq in Hdeg.
      assert (Hne : v <> "1").
      { intros ->. apply mem_false_not_In in Hm. contradiction. }
      pose proof (in_degree_pos T v HT Hv Hne) as Hlo.
      pose proof (in_degree_le_max T v Hv) as Hhi.
      assert (Hout : List.length (nx.adj_labels T v) = 2%nat).
      { rewrite adj_labels_length. unfold nx.degree in Hdeg. lia. }
      destruct (nx.adj_labels T v) as [|w0 [|w1 [|w2 ws]]]; try discriminate.
      destruct (String.eqb (invert_word w0) w1); simpl; eauto.
Qed.

(** What the loop has checked when it runs to its end. *)
Lemma check_degrees_Some (T : nx.DiGraph) (leaves : list string) :
  forall vs n m,
    check_degrees T leaves vs n = Ok (Some m) ->
    m = (n + List.length (filter (fun v => mem v leaves) vs))%nat
    /\ (forall v, In v vs -> mem v leaves = true -> nx.degree T v = 1%nat)
    /\ (forall v, In v vs -> mem v leaves = false ->
          nx.degree T v = 3%nat
          /\ exists w0, nx.adj_labels T v = [w0; invert_word w0]).
Proof.
  induction vs as [|v vs IH]; intros n m H; simpl in H.
  - injection H as <-. simpl. split; [lia|]. split; intros v [].
  - destruct (mem v leaves) eqn:Hm.
    + destruct (nx.degree T v =? 1)%nat eqn:Hdeg; simpl in H; [|discriminate].
      apply Nat.eqb_eq in Hdeg.
      apply IH in H. destruct H as (Hcount & Hleaf & Hinner).
      simpl. rewrite Hm. simpl. split; [lia|]. split.
      * intros w [<- | Hw] Hmw; auto.
      * intros w [<- | Hw] Hmw; [congruence | auto].
    + destruct (nx.degree T v =? 3)%nat eqn:Hdeg; simpl in H; [|discriminate].
      apply Nat.eqb_eq in Hdeg.
      destruct (nx.adj_labels T v) as [|w0 [|w1 [|w2 ws]]] eqn:Hadj;
        try discriminate.
      destruct (String.eqb (invert_word w0) w1) eqn:Hinv; simpl in H;
        [|discriminate].
      apply String.eqb_eq in Hinv.
      apply IH in H. destruct H as (Hcount & Hleaf & Hinner).
      simpl. rewrite Hm. split; [assumption|]. split.
      * intros w [<- | Hw] Hmw; [congruence | auto].
      * intros w [<- | Hw] Hmw; [|auto].
        split; [assumption|]. exists w0. subst w1. exact Hadj.
Qed.

Lemma is_branching_total (T : nx.DiGraph) :
  tree_inv T -> exists b, nx.is_branching T = Ok b.
Proof.
  intros HT. apply tree_inv_root_In in HT.
  unfold nx.is_branching, nx.is_forest.
  destruct (nx.nodes T) as [|v vs]; [destruct HT|]. simpl.
  destruct (forallb _ _); eauto.
Qed.

Lemma is_branching_max (T : nx.DiGraph) :
  nx.is_branching T = Ok true -> (nx.max_in_degree T <= 1)%nat.
Proof.
  unfold nx.is_branching. destruct (nx.is_forest T) as [[|]|]; simpl;
    try discriminate.
  intros H. injection H as H. now apply Nat.leb_le.
Qed.

(** [tree_ok] returns a boolean on every list of claims. *)
Lemma tree_ok_total (claims : list (list string * list string)) :
  exists b, tree_ok claims = Ok b.
Proof.
  unfold tree_ok.
  pose proof (build_tree_spec (paths_to_root claims)) as H. simpl in H.
  destruct (build_tree (paths_to_root claims)) as [T leaves]. simpl in H.
  destruct H as (HT & Hl & Hin & _).
  destruct (is_branching_total T HT) as [b Hb]. rewrite Hb. simpl.
  destruct b; simpl; [|eauto].
  assert (Hroot : In "1" leaves) by (rewrite Hl; now left).
  destruct (check_degrees_total T leaves HT (is_branching_max T Hb) Hroot
              (nx.nodes T) (incl_refl _) 0%nat) as [r Hr].
  rewrite Hr. simpl. destruct r as [m|]; [|eauto].
  destruct (m =? List.length leaves)%nat; simpl; eauto.
Qed.

(** *** What an accepted list of claims looks like *)

Lemma tree_ok_true_checks (claims : list (list string * list string)) :
  tree_ok claims = Ok true ->
  let T := fst (build_tree (paths_to_root claims)) in
  let leaves := snd (build_tree (paths_to_root claims)) in
  nx.is_branching T = Ok true
  /\ check_degrees T leaves (nx.nodes T) 0 = Ok (Some (List.length leaves))
  /\ prefixes_ok (nx.single_source_shortest_path T "1") = true.
Proof.
  unfold tree_ok.
  destruct (build_tree (paths_to_root claims)) as [T leaves]. simpl.
  destruct (nx.is_branching T) as [[|]|]; simpl; try discriminate.
  destruct (check_degrees T leaves (nx.nodes T) 0) as [[m|]|]; simpl;
    try discriminate.
  destruct (m =? List.length leaves)%nat eqn:Hm; simpl; try discriminate.
  apply Nat.eqb_eq in Hm. subst m. intros H. injection H as H. auto.
Qed.

Lemma tree_ok_true_leaves_NoDup (claims : list (list string * list string)) :
  tree_ok claims = Ok true ->
  NoDup (snd (build_tree (paths_to_root claims))).
Proof.
  intros Hok. apply tree_ok_true_checks in Hok. simpl in Hok.
  destruct Hok as (_ & Hdeg & _).
  pose proof (build_tree_spec (paths_to_root claims)) as Hb. simpl in Hb.
  destruct Hb as (HT & _ & Hin & _).
  set (T := fst (build_tree (paths_to_root claims))) in *.
  set (leaves := snd (build_tree (paths_to_root claims))) in *.
  apply check_degrees_Some in Hdeg. destruct Hdeg as (Hcount & _ & _).
  simpl in Hcount.
  apply NoDup_incl_NoDup
    with (l := filter (fun v => mem v leaves) (nx.nodes T)).
  - apply NoDup_filter, (inv_nodup T HT).
  - lia.
  - intros x Hx. apply filter_In in Hx. now apply mem_In.
Qed.

Lemma tree_ok_true_root_degree (claims : list (list string * list string)) :
  tree_ok claims = Ok true ->
  nx.degree (fst (build_tree (paths_to_root claims))) "1" = 1%nat.
Proof.
  intros Hok. apply tree_ok_true_checks in Hok. simpl in Hok.
  destruct Hok as (_ & Hdeg & _).
  pose proof (build_tree_spec (paths_to_root claims)) as Hb. simpl in Hb.
  destruct Hb as (HT & Hl & _ & _).
  apply check_degrees_Some in Hdeg. destruct Hdeg as (_ & Hleaf & _).
  apply Hleaf.
  - now apply tree_inv_root_In.
  - apply mem_In. rewrite Hl. now left.
Qed.

Lemma out_degree_one_arcs (T : nx.DiGraph) (u x y : string) :
  nx.out_degree T u = 1%nat -> has_arc T u x -> has_arc T u y -> x = y.
Proof.
  unfold nx.out_degree, nx.out_edges.
  intros Hlen [e1 (Hin1 & Hs1 & Hd1)] [e2 (Hin2 & Hs2 & Hd2)].
  assert (H1 : In e1 (filter (fun e => String.eqb (nx.src e) u) (nx.edges T))).
  { apply filter_In. split; [assumption | now apply String.eqb_eq]. }
  assert (H2 : In e2 (filter (fun e => String.eqb (nx.src e) u) (nx.edges T))).
  { apply filter_In. split; [assumption | now apply String.eqb_eq]. }
  destruct (filter _ (nx.edges T)) as [|e [|e' es]]; try discriminate.
  destruct H1 as [<- | []]. destruct H2 as [<- | []]. congruence.
Qed.

Lemma tree_ok_true_paths_nonempty (claims : list (list string * list string)) :
  tree_ok claims = Ok true ->
  forall path, In path (paths_to_root claims) -> path <> [].
Proof.
  intros Hok path Hin ->. apply tree_ok_true_leaves_NoDup in Hok.
  pose proof (build_tree_spec (paths_to_root claims)) as Hb. simpl in Hb.
  destruct Hb as (_ & Hl & _ & _). rewrite Hl in Hok.
  apply NoDup_cons_iff in Hok. destruct Hok as [Hroot _]. apply Hroot.
  change "1" with (walk "1" []). now apply in_map.
Qed.

Lemma tree_ok_true_first_label (claims : list (list string * list string)) :
  tree_ok claims = Ok true ->
  exists g, forall path, In path (paths_to_root claims) ->
                         exists rest, path = g :: rest.
Proof.
  intros Hok.
  pose proof (tree_ok_true_root_degree claims Hok) as Hdeg.
  pose proof (tree_ok_true_paths_nonempty claims Hok) as Hne.
  pose proof (build_tree_spec (paths_to_root claims)) as Hb. simpl in Hb.
  destruct Hb as (HT & _ & _ & Hfirst).
  unfold nx.degree in Hdeg. rewrite (root_in_degree _ HT) in Hdeg.
  simpl in Hdeg.
  destruct (paths_to_root claims) as [|p ps] eqn:Hp.
  - exists EmptyString. intros path [].
  - destruct p as [|g rest]; [exfalso; apply (Hne []); [now left | reflexivity]|].
    exists g. intros [|h rest'] Hin.
    + exfalso. now apply (Hne []).
    + exists rest'. f_equal.
      assert (Hx : "1" ++ "." ++ h = "1" ++ "." ++ g).
      { apply (out_degree_one_arcs
                 (fst (build_tree ((g :: rest) :: ps))) "1");
          [assumption | | ].
        - now apply (Hfirst h rest').
        - apply (Hfirst g rest). now left. }
      simpl in Hx. now injection Hx.
Qed.

(** *** The claims about [tree_ok] *)

(** C4, as the code has it: for a single claim whose path is ["a"],
    [tree_ok] returns [True].  The root "1" is in the list [leaves] from the
    start, so the rule applied to it is the rule for leaves, total degree 1,
    and the root of this one-path tree has total degree 1; both nodes are
    counted as leaves and the count equals the length of [leaves]. *)
Theorem tree_ok_single_path_accepted :
  forall w : list string,
    tree_ok [(["a"], w)] = Ok true
    /\ build_tree [["a"]]
       = ({| nx.nodes := ["1"; "1.a"];
             nx.edges := [nx.mk_edge "1" "1.a" "a"] |}, ["1"; "1.a"])
    /\ mem "1" (snd (build_tree [["a"]])) = true
    /\ nx.degree (fst (build_tree [["a"]])) "1" = 1%nat
    /\ check_degrees (fst (build_tree [["a"]])) (snd (build_tree [["a"]]))
         ["1"; "1.a"] 0 = Ok (Some 2%nat).
Proof.
  intros w. repeat split.
Qed.

(** C4, as stated, fails: the single-claim input with path ["a"] is not
    rejected. *)
Lemma tree_ok_single_path_not_rejected :
  tree_ok [(["a"], ["a"])] <> Ok false.
Proof.
  discriminate.
Qed.

(** C5: the list [leaves] starts with the root "1", before any path is
    walked; a list of claims is accepted only if the root has total degree 1,
    and then all its paths start with one and the same edge label; the two
    claims with paths ["a"] and ["A"] give the root degree 2 and are
    rejected. *)
Theorem tree_ok_root_is_a_leaf :
  (forall paths, snd (build_tree paths) = "1" :: map (walk "1") paths)
  /\ (forall claims,
        tree_ok claims = Ok true ->
        nx.degree (fst (build_tree (paths_to_root claims))) "1" = 1%nat
        /\ nx.out_degree (fst (build_tree (paths_to_root claims))) "1" = 1%nat
        /\ exists g, forall path, In path (paths_to_root claims) ->
                                  exists rest, path = g :: rest)
  /\ (forall w1 w2 : list string,
        tree_ok [(["a"], w1); (["A"], w2)] = Ok false)
  /\ nx.degree (fst (build_tree [["a"]; ["A"]])) "1" = 2%nat.
Proof.
  split_ands.
  - intros paths. apply (build_tree_spec paths).
  - intros claims Hok. split_ands.
    + now apply tree_ok_true_root_degree.
    + pose proof (tree_ok_true_root_degree claims Hok) as Hdeg.
      unfold nx.degree in Hdeg.
      now rewrite (root_in_degree _ (proj1 (build_tree_spec _))) in Hdeg.
    + now apply tree_ok_true_first_label.
  - reflexivity.
  - reflexivity.
Qed.

(** The first sample proof of [check_proof.py] is an accepted list: its
    root has degree 1 and its three paths start with "a". *)
Lemma tree_ok_root_is_a_leaf_sample1 :
  tree_ok sample1_claims = Ok true
  /\ nx.degree (fst (build_tree (paths_to_root sample1_claims))) "1" = 1%nat
  /\ nx.out_degree (fst (build_tree (paths_to_root sample1_claims))) "1"
     = 1%nat
  /\ exists g, forall path, In path (paths_to_root sample1_claims) ->
                            exists rest, path = g :: rest.
Proof.
  split; [reflexivity|].
  apply (proj1 (proj2 tree_ok_root_is_a_leaf) sample1_claims).
  reflexivity.
Defined.

(** C7: two claims with the same path ["a"] are rejected.  The graph is a
    branching and every degree is right; the loop counts two leaves, the
    root and "1.a", while [leaves] has three items, the root and one per
    claim: the two paths lead to one leaf, and there are two claims.  In
    general no accepted list of claims has a path twice. *)
Theorem tree_ok_duplicate_path_rejected :
  (forall w1 w2 : list string,
     tree_ok [(["a"], w1); (["a"], w2)] = Ok false)
  /\ nx.is_branching (fst (build_tree [["a"]; ["a"]])) = Ok true
  /\ check_degrees (fst (build_tree [["a"]; ["a"]]))
       (snd (build_tree [["a"]; ["a"]]))
       (nx.nodes (fst (build_tree [["a"]; ["a"]]))) 0 = Ok (Some 2%nat)
  /\ List.length (snd (build_tree [["a"]; ["a"]])) = 3%nat
  /\ List.length (nodup string_dec (map (walk "1") [["a"]; ["a"]])) = 1%nat
  /\ (forall claims, tree_ok claims = Ok true ->
                     NoDup (paths_to_root claims)).
Proof.
  split_ands; try reflexivity.
  intros claims Hok. apply tree_ok_true_leaves_NoDup in Hok.
  rewrite (proj1 (proj2 (build_tree_spec (paths_to_root claims)))) in Hok.
  apply NoDup_cons_iff in Hok. destruct Hok as [_ Hok].
  now apply NoDup_map_inv in Hok.
Qed.

(** ** The solver *)

Section SolverFacts.

Context `{IP : IntervalProvider}.

Lemma jorgensens_inequality_fails_asserted (P Q : Mat) :
  assertion_holds P Q = true ->
  jorgensens_inequality_fails P Q = Ok (rif_lt_int (jorgensen_mu P Q) 1).
Proof.
  unfold assertion_holds, jorgensens_inequality_fails. intros ->. reflexivity.
Qed.

Lemma jorgensens_inequality_fails_unasserted (P Q : Mat) :
  assertion_holds P Q = false ->
  jorgensens_inequality_fails P Q = Raise AssertionError.
Proof.
  unfold assertion_holds, jorgensens_inequality_fails. intros ->. reflexivity.
Qed.


Lemma is_trivial_Ok (self : WordProblemSolver) (w : string) (b : bool) :
  is_nontrivial self w = Ok b <-> is_trivial self w = Ok (negb b).
Proof.
  unfold is_trivial. destruct (is_nontrivial self w) as [b'|e]; simpl.
  - split; [now intros [= ->] |].
    intros [= H]. f_equal. now destruct b, b'.
  - split; discriminate.
Qed.

Lemma is_trivial_Raise (self : WordProblemSolver) (w : string) (e : exn) :
  is_nontrivial self w = Raise e <-> is_trivial self w = Raise e.
Proof.
  unfold is_trivial. destruct (is_nontrivial self w) as [b'|e']; simpl.
  - split; discriminate.
  - tauto.
Qed.

(** C1: [is_nontrivial] returns [True] exactly when the image [X] of the
    word does not contain the identity, and [False] exactly when [X]
    contains it and the Jorgensen test returns [True] for [(X, A)] and for
    [(X, B)]; in every other case it raises and returns no boolean.  When
    [X] and the two anchors pass the assertion of the test, as matrices that
    contain elements of the group do, the outcomes are three: [True],
    [False], and the [ValueError] of insufficient precision.  [is_trivial]
    returns the negation when [is_nontrivial] returns, and raises the same
    exception when it raises. *)
Theorem is_nontrivial_three_outcomes (self : WordProblemSolver) (w : string) :
  let X := rho_eval (rho self) w in
  let A := fst (noncommmuting_mats self) in
  let B := snd (noncommmuting_mats self) in
  (is_nontrivial self w = Ok true <-> contains_one X = false)
  /\ (is_nontrivial self w = Ok false
      <-> contains_one X = true
          /\ jorgensens_inequality_fails X A = Ok true
          /\ jorgensens_inequality_fails X B = Ok true)
  /\ (assertion_holds X A = true ->
      assertion_holds X B = true ->
      (contains_one X = false
       /\ is_nontrivial self w = Ok true)
      \/ (contains_one X = true
          /\ jorgensens_inequality_fails X A = Ok true
          /\ jorgensens_inequality_fails X B = Ok true
          /\ is_nontrivial self w = Ok false)
      \/ (contains_one X = true
          /\ (jorgensens_inequality_fails X A = Ok false
              \/ jorgensens_inequality_fails X B = Ok false)
          /\ is_nontrivial self w = Raise PrecisionInsufficient))
  /\ (forall b, is_nontrivial self w = Ok b
                <-> is_trivial self w = Ok (negb b))
  /\ (forall e, is_nontrivial self w = Raise e
                <-> is_trivial self w = Raise e).
Proof.
  intros X A B. split_ands.
  - unfold is_nontrivial. fold X.
    destruct (noncommmuting_mats self) as [A' B']. simpl in A, B. subst A B.
    destruct (contains_one X); simpl; [|tauto].
    destruct (jorgensens_inequality_fails X A') as [[|]|]; simpl;
      try (split; discriminate).
    destruct (jorgensens_inequality_fails X B') as [[|]|]; simpl;
      split; discriminate.
  - unfold is_nontrivial. fold X.
    destruct (noncommmuting_mats self) as [A' B']. simpl in A, B. subst A B.
    destruct (contains_one X); simpl;
      [|split; [discriminate | intros [H _]; discriminate]].
    destruct (jorgensens_inequality_fails X A') as [[|]|]; simpl;
      try (split; [discriminate | intros (_ & H & _); discriminate]).
    destruct (jorgensens_inequality_fails X B') as [[|]|]; simpl;
      try (split; [discriminate | intros (_ & _ & H); discriminate]).
    tauto.
  - intros HA HB. unfold is_nontrivial. fold X.
    destruct (noncommmuting_mats self) as [A' B'] eqn:Hmats.
    simpl in A, B. subst A B.
    rewrite (jorgensens_inequality_fails_asserted X A' HA).
    rewrite (jorgensens_inequality_fails_asserted X B' HB).
    destruct (contains_one X); simpl; [|now left].
    right.
    destruct (rif_lt_int (jorgensen_mu X A') 1); simpl.
    + destruct (rif_lt_int (jorgensen_mu X B') 1); simpl.
      * left. auto.
      * right. auto.
    + right. auto.
  - intros b. apply is_trivial_Ok.
  - intros e. apply is_trivial_Raise.
Qed.


End SolverFacts.

(** ** The filling coefficients *)

Lemma ZZ_Ok (x : Q) (z : Z) : ZZ x = Ok z <-> x == inject_Z z.
Proof.
  unfold ZZ, Qeq. destruct x as [n d]. simpl.
  destruct (n mod Z.pos d =? 0)%Z eqn:Hmod.
  - apply Z.eqb_eq in Hmod.
    assert (Hn : (n = Z.pos d * (n / Z.pos d))%Z).
    { apply Z.div_exact; [discriminate | assumption]. }
    split.
    + intros [= <-]. lia.
    + intros H. f_equal. rewrite Z.mul_1_r in H. rewrite H.
      apply Z.div_mul. discriminate.
  - apply Z.eqb_neq in Hmod. split; [discriminate|].
    intros H. exfalso. apply Hmod. rewrite Z.mul_1_r in H. rewrite H.
    apply Z.mod_mul. discriminate.
Qed.

Lemma ZZ_Raise (x : Q) (e : exn) :
  ZZ x = Raise e -> e = TypeError /\ forall z, ~ x == inject_Z z.
Proof.
  intros H. split.
  - unfold ZZ in H. destruct (_ =? 0)%Z; [discriminate | now injection H].
  - intros z Hz. apply ZZ_Ok in Hz. congruence.
Qed.

Lemma is_manifold_fillings_Forall (fillings : list (Q * Q)) :
  is_manifold_fillings fillings = true <-> Forall cusp_passes fillings.
Proof.
  induction fillings as [|[a b] rest IH]; simpl.
  - split; [constructor | reflexivity].
  - rewrite Forall_cons_iff, <- IH. unfold cusp_passes. simpl.
    destruct (ZZ a) as [a'|ea] eqn:Ha; simpl.
    + apply ZZ_Ok in Ha. destruct (ZZ b) as [b'|eb] eqn:Hb; simpl.
      * apply ZZ_Ok in Hb.
        assert (Huniq : forall a2 b2, a == inject_Z a2 -> b == inject_Z b2 ->
                                      a2 = a' /\ b2 = b').
        { intros a2 b2 Ha2 Hb2. rewrite Ha in Ha2. rewrite Hb in Hb2.
          unfold Qeq in Ha2, Hb2. simpl in Ha2, Hb2. lia. }
        destruct ((a' =? 0)%Z && (b' =? 0)%Z) eqn:Hz.
        -- apply andb_true_iff in Hz. rewrite !Z.eqb_eq in Hz.
           split; [|tauto]. intros H. split; [|assumption].
           exists a', b'. tauto.
        -- destruct (Z.gcd a' b' =? 1)%Z eqn:Hg; simpl.
           ++ apply Z.eqb_eq in Hg. split; [|tauto].
              intros H. split; [|assumption]. exists a', b'. tauto.
           ++ apply Z.eqb_neq in Hg. split; [discriminate|].
              intros [(a2 & b2 & Ha2 & Hb2 & Hor) _]. exfalso.
              destruct (Huniq a2 b2 Ha2 Hb2) as [-> ->].
              destruct Hor as [[-> ->] | Hor]; [|contradiction].
              simpl in Hz. discriminate.
      * apply ZZ_Raise in Hb. split; [discriminate|].
        intros [(a2 & b2 & _ & Hb2 & _) _]. exfalso.
        now apply (proj2 Hb b2).
    + apply ZZ_Raise in Ha. split; [discriminate|].
      intros [(a2 & b2 & Ha2 & _) _]. exfalso. now apply (proj2 Ha a2).
Qed.

(** C8: [is_manifold] lets a list of filling coefficients through exactly
    when every pair is made of two integers that are both zero or coprime;
    the pair (0, 0) passes; a pair with a coefficient that is not an integer,
    or with a common divisor, makes the construction of the solver raise the
    [ValueError] about orbifolds, whatever [verify_hyperbolicity] would
    answer or raise: it has not been called. *)
Theorem is_manifold_gate `{IP : IntervalProvider} (manifold : Manifold)
  (bits_prec : Z) (fundamental_group_args : list Z) :
  (is_manifold manifold = true
   <-> Forall cusp_passes (cusp_info_filling manifold))
  /\ cusp_passes (0, 0)
  /\ (forall a b rest,
        (forall z, ~ a == inject_Z z) \/ (forall z, ~ b == inject_Z z) ->
        is_manifold_fillings ((a, b) :: rest) = false)
  /\ (forall (a b : Z) rest,
        Z.gcd a b <> 1%Z -> ~ (a = 0 /\ b = 0)%Z ->
        is_manifold_fillings ((inject_Z a, inject_Z b) :: rest) = false)
  /\ (is_manifold manifold = false ->
      WordProblemSolver_init manifold bits_prec fundamental_group_args
      = Raise UnsupportedTopology).
Proof.
  split_ands.
  - apply is_manifold_fillings_Forall.
  - exists 0%Z, 0%Z. simpl. split_ands; try reflexivity. now left.
  - intros a b rest Hab.
    destruct (is_manifold_fillings ((a, b) :: rest)) eqn:H; [|reflexivity].
    apply is_manifold_fillings_Forall in H. apply Forall_cons_iff in H.
    destruct H as [(a' & b' & Ha & Hb & _) _]. simpl in Ha, Hb.
    exfalso. destruct Hab as [Hab | Hab]; eapply Hab; eassumption.
  - intros a b rest Hg Hz.
    destruct (is_manifold_fillings ((inject_Z a, inject_Z b) :: rest)) eqn:H;
      [|reflexivity].
    apply is_manifold_fillings_Forall in H. apply Forall_cons_iff in H.
    destruct H as [(a' & b' & Ha & Hb & Hor) _]. simpl in Ha, Hb.
    unfold Qeq in Ha, Hb. simpl in Ha, Hb.
    assert (a = a') by lia. assert (b = b') by lia. subst a' b'.
    exfalso. tauto.
  - intros H. unfold WordProblemSolver_init. now rewrite H.
Qed.

(** ** The three stages of [check_proof] *)

Lemma py_all_true {A : Type} (f : A -> result bool) (xs : list A) :
  py_all f xs = Ok true <-> forall x, In x xs -> f x = Ok true.
Proof.
  induction xs as [|x xs IH]; simpl.
  - split; [intros _ y [] | reflexivity].
  - destruct (f x) as [[|]|e] eqn:Hx; simpl.
    + rewrite IH. split.
      * intros H y [<- | Hy]; auto.
      * intros H y Hy. apply H. now right.
    + split; [discriminate|]. intros H.
      specialize (H x (or_introl eq_refl)). congruence.
    + split; [discriminate|]. intros H.
      specialize (H x (or_introl eq_refl)). congruence.
Qed.

Lemma py_all_raises_at {A : Type} (f : A -> result bool)
  (before : list A) (x : A) (after : list A) (e : exn) :
  (forall y, In y before -> f y = Ok true) -> f x = Raise e ->
  py_all f (before ++ x :: after)%list = Raise e.
Proof.
  intros Hbefore Hx. induction before as [|y before IH]; simpl.
  - now rewrite Hx.
  - rewrite (Hbefore y (or_introl eq_refl)). simpl. apply IH.
    intros z Hz. apply Hbefore. now right.
Qed.

Section ProofChecker.

Context `{IP : IntervalProvider}.
Variable set_iter : list string -> list string.
Variable snappy_Manifold : string -> Manifold.

Lemma check_claim_true (solver : WordProblemSolver)
  (path trivial_word : list string) :
  check_claim solver (path, trivial_word) = Ok true
  <-> (forall t, In t trivial_word -> In t path)
      /\ is_trivial solver (join trivial_word) = Ok true.
Proof.
  unfold check_claim.
  destruct (is_trivial solver (join trivial_word)) as [b|e]; simpl.
  - split.
    + intros [= H]. apply andb_true_iff in H. destruct H as [Hsub ->].
      split; [|reflexivity]. intros t Ht. apply mem_In.
      rewrite forallb_forall in Hsub. now apply Hsub.
    + intros [Hsub [= ->]]. f_equal. rewrite andb_true_r.
      apply forallb_forall. intros t Ht. now apply mem_In, Hsub.
  - split; [discriminate | intros [_ H]; discriminate].
Qed.

Lemma check_claim_foreign_token (solver : WordProblemSolver)
  (path trivial_word : list string) (t : string) :
  In t trivial_word -> ~ In t path ->
  is_trivial solver (join trivial_word) = Ok true ->
  check_claim solver (path, trivial_word) = Ok false.
Proof.
  intros Ht Hnot Htriv. unfold check_claim. rewrite Htriv. simpl.
  f_equal. rewrite andb_true_r. apply not_true_is_false. intros Hall.
  rewrite forallb_forall in Hall. apply Hnot, mem_In, Hall, Ht.
Qed.

Lemma check_claim_raises (solver : WordProblemSolver)
  (path trivial_word : list string) (e : exn) :
  is_trivial solver (join trivial_word) = Raise e ->
  check_claim solver (path, trivial_word) = Raise e.
Proof.
  intros H. unfold check_claim. now rewrite H.
Qed.

Lemma all_nontrivial_edge_labels_true (solver : WordProblemSolver)
  (claims : list (list string * list string)) :
  iterates_set set_iter ->
  (all_nontrivial_edge_labels set_iter solver claims = Ok true
   <-> forall path e, In path (paths_to_root claims) -> In e path ->
                      is_nontrivial solver e = Ok true).
Proof.
  intros Hset. unfold all_nontrivial_edge_labels. rewrite py_all_true.
  split.
  - intros H path e Hpath He. apply H, (proj2 (Hset _)), in_concat.
    exists path. auto.
  - intros H e He. apply (proj2 (Hset _)), in_concat in He.
    destruct He as [path [Hpath He]]. now apply (H path).
Qed.

Lemma check_proof_stages (p : ProofRecord) (solver : WordProblemSolver) :
  prepared snappy_Manifold p solver ->
  check_proof set_iter snappy_Manifold p
  = (a0 <- tree_ok (parse_claims (proof p)) ;;
     a1 <- all_nontrivial_edge_labels set_iter solver
             (parse_claims (proof p)) ;;
     a2 <- py_all (check_claim solver) (parse_claims (proof p)) ;;
     Ok (a0 && a1 && a2)).
Proof.
  intros (Hinit & Hgens & Hrels). unfold check_proof.
  rewrite Hinit. simpl. rewrite Hgens. simpl. rewrite Hrels. reflexivity.
Qed.

End ProofChecker.

(** C6: [check_claim] returns [True] exactly when every token of the
    asserted word is one of the edge labels of the claim's own path and the
    solver returns that the concatenation of the tokens is trivial; a token
    that is not on the path gives [False] even if the solver returns that
    the word is trivial; the stage of the edge labels returns [True] exactly
    when the solver returns [True] on every edge label of every path; and,
    once the solver is built and the two assertions on generators and
    relators hold, the value [check_proof] returns is the conjunction of the
    values of its three stages. *)
Theorem check_proof_is_conjunction `{IP : IntervalProvider}
  (set_iter : list string -> list string)
  (snappy_Manifold : string -> Manifold) :
  iterates_set set_iter ->
  (forall solver path trivial_word,
     check_claim solver (path, trivial_word) = Ok true
     <-> (forall t, In t trivial_word -> In t path)
         /\ is_trivial solver (join trivial_word) = Ok true)
  /\ (forall solver path trivial_word t,
        In t trivial_word -> ~ In t path ->
        is_trivial solver (join trivial_word) = Ok true ->
        check_claim solver (path, trivial_word) = Ok false)
  /\ (forall solver claims,
        all_nontrivial_edge_labels set_iter solver claims = Ok true
        <-> forall path e, In path (paths_to_root claims) -> In e path ->
                           is_nontrivial solver e = Ok true)
  /\ (forall p solver,
        prepared snappy_Manifold p solver ->
        let claims := parse_claims (proof p) in
        (forall a0 a1 a2,
           tree_ok claims = Ok a0 ->
           all_nontrivial_edge_labels set_iter solver claims = Ok a1 ->
           py_all (check_claim solver) claims = Ok a2 ->
           check_proof set_iter snappy_Manifold p = Ok (a0 && a1 && a2))
        /\ (forall b,
              check_proof set_iter snappy_Manifold p = Ok b ->
              exists a0 a1 a2,
                tree_ok claims = Ok a0
                /\ all_nontrivial_edge_labels set_iter solver claims = Ok a1
                /\ py_all (check_claim solver) claims = Ok a2
                /\ b = a0 && a1 && a2)).
Proof.
  intros Hset. split_ands.
  - apply check_claim_true.
  - apply check_claim_foreign_token.
  - intros solver claims. now apply all_nontrivial_edge_labels_true.
  - intros p solver Hprep claims.
    rewrite (check_proof_stages set_iter snappy_Manifold p solver Hprep).
    fold claims. split.
    + intros a0 a1 a2 -> -> ->. reflexivity.
    + intros b.
      destruct (tree_ok claims) as [a0|]; simpl; [|discriminate].
      destruct (all_nontrivial_edge_labels set_iter solver claims) as [a1|];
        simpl; [|discriminate].
      destruct (py_all (check_claim solver) claims) as [a2|];
        simpl; [|discriminate].
      intros [= <-]. exists a0, a1, a2. auto.
Qed.

(** C10: in [check_claim] the solver is asked about the asserted word before
    the tokens are compared with the path, so its exception leaves
    [check_claim] whatever the tokens are; in [check_proof] the stage of the
    edge labels and the stage of the claims are evaluated whatever
    [tree_ok] returned, and the stage of the claims whatever the stage of
    the edge labels returned, so an exception of either stage leaves
    [check_proof]: such is the failure of precision on the asserted word of
    a claim that comes after claims that check, whatever the tokens of that
    claim and whatever the shape of the tree. *)
Theorem check_proof_stages_are_eager `{IP : IntervalProvider}
  (set_iter : list string -> list string)
  (snappy_Manifold : string -> Manifold) :
  (forall solver path trivial_word e,
     is_trivial solver (join trivial_word) = Raise e ->
     check_claim solver (path, trivial_word) = Raise e)
  /\ (forall p solver e,
        prepared snappy_Manifold p solver ->
        all_nontrivial_edge_labels set_iter solver (parse_claims (proof p))
        = Raise e ->
        check_proof set_iter snappy_Manifold p = Raise e)
  /\ (forall p solver a1 e,
        prepared snappy_Manifold p solver ->
        all_nontrivial_edge_labels set_iter solver (parse_claims (proof p))
        = Ok a1 ->
        py_all (check_claim solver) (parse_claims (proof p)) = Raise e ->
        check_proof set_iter snappy_Manifold p = Raise e)
  /\ (forall p solver a1 before path trivial_word after,
        prepared snappy_Manifold p solver ->
        all_nontrivial_edge_labels set_iter solver (parse_claims (proof p))
        = Ok a1 ->
        parse_claims (proof p)
        = (before ++ (path, trivial_word) :: after)%list ->
        (forall c, In c before -> check_claim solver c = Ok true) ->
        is_trivial solver (join trivial_word) = Raise PrecisionInsufficient ->
        check_proof set_iter snappy_Manifold p = Raise PrecisionInsufficient).
Proof.
  assert (Hclaims_raise :
            forall p solver a1 e,
              prepared snappy_Manifold p solver ->
              all_nontrivial_edge_labels set_iter solver
                (parse_claims (proof p)) = Ok a1 ->
              py_all (check_claim solver) (parse_claims (proof p))
              = Raise e ->
              check_proof set_iter snappy_Manifold p = Raise e).
  { intros p solver a1 e Hprep Hlabels Hclaims.
    rewrite (check_proof_stages set_iter snappy_Manifold p solver Hprep).
    destruct (tree_ok_total (parse_claims (proof p))) as [a0 ->]. simpl.
    rewrite Hlabels. simpl. now rewrite Hclaims. }
  split_ands.
  - apply check_claim_raises.
  - intros p solver e Hprep Hlabels.
    rewrite (check_proof_stages set_iter snappy_Manifold p solver Hprep).
    destruct (tree_ok_total (parse_claims (proof p))) as [a0 ->]. simpl.
    now rewrite Hlabels.
  - exact Hclaims_raise.
  - intros p solver a1 before path trivial_word after Hprep Hlabels
      Hsplit Hbefore Hword.
    apply (Hclaims_raise p solver a1 _ Hprep Hlabels).
    rewrite Hsplit. apply py_all_raises_at; [assumption|].
    now apply check_claim_raises.
Qed.

(** ** The solver on rational intervals *)

Section OnRationalIntervals.

Import QIntervals.

Lemma listed_once_iterates_set : iterates_set listed_once.
Proof.
  intros xs. split; [apply NoDup_nodup | intros x; apply nodup_In].
Qed.

Lemma free_record_prepared_fine :
  prepared (fun _ => free_manifold (1 # 1000) []) free_record
    (free_solver (1 # 1000)).
Proof.
  unfold prepared. split_ands; reflexivity.
Qed.

Lemma free_record_prepared_coarse :
  prepared (fun _ => free_manifold (1 # 100) []) free_record
    (free_solver (1 # 100)).
Proof.
  unfold prepared. split_ands; reflexivity.
Qed.

(** *** Matrices that contain an element of the group pass the assertion *)

Lemma contains_inside (x : itv) (q : Q) : contains x q = true <-> inside x q.
Proof.
  unfold contains, inside. now rewrite andb_true_iff, !Qle_bool_iff.
Qed.

Lemma inside_Qeq (x : itv) (p q : Q) : p == q -> inside x p -> inside x q.
Proof.
  unfold inside. intros Heq [H1 H2]. rewrite <- Heq. auto.
Qed.

Lemma qmin_le (a b : Q) : qmin a b <= a /\ qmin a b <= b.
Proof.
  unfold qmin. destruct (Qle_bool a b) eqn:H.
  - apply Qle_bool_iff in H. split; [apply Qle_refl | assumption].
  - split; [|apply Qle_refl]. apply Qlt_le_weak, Qnot_le_lt.
    intros Hle. apply Qle_bool_iff in Hle. congruence.
Qed.

Lemma qmax_ge (a b : Q) : a <= qmax a b /\ b <= qmax a b.
Proof.
  unfold qmax. destruct (Qle_bool a b) eqn:H.
  - apply Qle_bool_iff in H. split; [assumption | apply Qle_refl].
  - split; [apply Qle_refl|]. apply Qlt_le_weak, Qnot_le_lt.
    intros Hle. apply Qle_bool_iff in Hle. congruence.
Qed.

(** A product [x * y] with [y] between [c] and [d] is between [x * c] and
    [x * d], in one order or the other. *)
Lemma mul_between (x c y d : Q) :
  c <= y -> y <= d ->
  (x * c <= x * y \/ x * d <= x * y) /\ (x * y <= x * c \/ x * y <= x * d).
Proof.
  intros H1 H2. destruct (Qlt_le_dec x 0) as [Hx | Hx].
  - split; [right | left]; nra.
  - split; [left | right]; nra.
Qed.

Lemma iadd_inside (x y : itv) (p q : Q) :
  inside x p -> inside y q -> inside (iadd x y) (p + q).
Proof.
  unfold inside, iadd. simpl. intros [] []. split; lra.
Qed.

Lemma ineg_inside (x : itv) (p : Q) : inside x p -> inside (ineg x) (- p).
Proof.
  unfold inside, ineg. simpl. intros []. split; lra.
Qed.

Lemma imul_inside (x y : itv) (p q : Q) :
  inside x p -> inside y q -> inside (imul x y) (p * q).
Proof.
  unfold inside, imul. simpl. intros [Ha Hb] [Hc Hd].
  destruct (mul_between p (lo y) q (hi y) Hc Hd) as [Hlow Hhigh].
  destruct (mul_between (lo y) (lo x) p (hi x) Ha Hb) as [Hlc Hhc].
  destruct (mul_between (hi y) (lo x) p (hi x) Ha Hb) as [Hld Hhd].
  pose proof (qmin_le (qmin (lo x * lo y) (lo x * hi y))
                      (qmin (hi x * lo y) (hi x * hi y))) as [M1 M2].
  pose proof (qmin_le (lo x * lo y) (lo x * hi y)) as [M3 M4].
  pose proof (qmin_le (hi x * lo y) (hi x * hi y)) as [M5 M6].
  pose proof (qmax_ge (qmax (lo x * lo y) (lo x * hi y))
                      (qmax (hi x * lo y) (hi x * hi y))) as [N1 N2].
  pose proof (qmax_ge (lo x * lo y) (lo x * hi y)) as [N3 N4].
  pose proof (qmax_ge (hi x * lo y) (hi x * hi y)) as [N5 N6].
  split.
  - destruct Hlow as [H | H];
      [destruct Hlc as [H' | H'] | destruct Hld as [H' | H']]; lra.
  - destruct Hhigh as [H | H];
      [destruct Hhc as [H' | H'] | destruct Hhd as [H' | H']]; lra.
Qed.

(** An interval matrix that contains a matrix of determinant 1 passes what
    [jorgensens_inequality_fails] asserts of it. *)
Lemma mat_has_contains_one (M : mat) (g : point_mat) :
  mat_has M g -> contains_one (mat_mul M (SL2C_inverse M)) = true.
Proof.
  intros (H00 & H01 & H10 & H11 & Hdet).
  simpl. unfold mcontains_one, mmul, minverse. simpl.
  rewrite !andb_true_iff, !contains_inside. split_ands.
  - apply (inside_Qeq _ (p00 g * p11 g + p01 g * - p10 g)); [lra|].
    apply iadd_inside; apply imul_inside; auto using ineg_inside.
  - apply (inside_Qeq _ (p00 g * - p01 g + p01 g * p00 g)); [lra|].
    apply iadd_inside; apply imul_inside; auto using ineg_inside.
  - apply (inside_Qeq _ (p10 g * p11 g + p11 g * - p10 g)); [lra|].
    apply iadd_inside; apply imul_inside; auto using ineg_inside.
  - apply (inside_Qeq _ (p10 g * - p01 g + p11 g * p00 g)); [lra|].
    apply iadd_inside; apply imul_inside; auto using ineg_inside.
Qed.

Lemma mat_has_assertion (P Q : mat) (g h : point_mat) :
  mat_has P g -> mat_has Q h -> assertion_holds P Q = true.
Proof.
  intros Hg Hh. unfold assertion_holds.
  now rewrite (mat_has_contains_one P g Hg), (mat_has_contains_one Q h Hh).
Qed.


(** On these intervals [x < n] is the comparison of the specification: it
    holds for every point of [x]. *)
Lemma rif_lt_int_inside (x : itv) (n : Z) :
  lo x <= hi x ->
  (rif_lt_int x n = true <-> forall q, inside x q -> q < inject_Z n).
Proof.
  intros Hx. simpl. unfold ilt, of_Z, point, inside. simpl.
  rewrite negb_true_iff. split.
  - intros H q [_ Hq]. apply Qle_lt_trans with (hi x); [assumption|].
    apply Qnot_le_lt. intros Hle. apply Qle_bool_iff in Hle. congruence.
  - intros H. apply not_true_is_false. intros Hle.
    apply Qle_bool_iff in Hle.
    specialize (H (hi x) (conj Hx (Qle_refl _))). lra.
Qed.

(** For two interval matrices that contain elements of the group, the test
    returns [True] exactly when every point of the interval [mu] is below
    1. *)
Lemma jorgensens_inequality_fails_on_points (P Q : @Mat provider)
  (g h : point_mat) :
  mat_has P g -> mat_has Q h ->
  lo (jorgensen_mu P Q) <= hi (jorgensen_mu P Q) ->
  (jorgensens_inequality_fails P Q = Ok true
   <-> forall q, inside (jorgensen_mu P Q) q -> q < 1).
Proof.
  intros Hg Hh Hmu.
  rewrite (jorgensens_inequality_fails_asserted P Q
             (mat_has_assertion P Q g h Hg Hh)).
  rewrite <- (rif_lt_int_inside (jorgensen_mu P Q) 1 Hmu).
  generalize (rif_lt_int (jorgensen_mu P Q) 1). intros b.
  split; [intros H; injection H as ->; reflexivity | intros ->; reflexivity].
Qed.


(** "aA" with the generators known up to 1/1000: the image contains the
    identity, both tests return [True], the word is trivial. *)
Lemma is_nontrivial_three_outcomes_example :
  assertion_holds (rho_eval (rho (free_solver (1 # 1000))) "aA")
    (fst (noncommmuting_mats (free_solver (1 # 1000)))) = true
  /\ assertion_holds (rho_eval (rho (free_solver (1 # 1000))) "aA")
       (snd (noncommmuting_mats (free_solver (1 # 1000)))) = true
  /\ is_nontrivial (free_solver (1 # 1000)) "aA" = Ok false
  /\ is_trivial (free_solver (1 # 1000)) "aA" = Ok true.
Proof.
  assert (HA : assertion_holds (rho_eval (rho (free_solver (1 # 1000))) "aA")
                 (fst (noncommmuting_mats (free_solver (1 # 1000)))) = true)
    by (vm_compute; reflexivity).
  assert (HB : assertion_holds (rho_eval (rho (free_solver (1 # 1000))) "aA")
                 (snd (noncommmuting_mats (free_solver (1 # 1000)))) = true)
    by (vm_compute; reflexivity).
  split; [exact HA|]. split; [exact HB|].
  destruct (is_nontrivial_three_outcomes (free_solver (1 # 1000)) "aA")
    as (_ & _ & Hcases & Htriv & _).
  assert (H : is_nontrivial (free_solver (1 # 1000)) "aA" = Ok false).
  { destruct (Hcases HA HB)
      as [[Hc _] | [(_ & _ & _ & H) | (_ & [Hc | Hc] & _)]].
    - vm_compute in Hc. discriminate.
    - exact H.
    - vm_compute in Hc. discriminate.
    - vm_compute in Hc. discriminate. }
  split; [exact H|]. apply (proj1 (Htriv false) H).
Defined.



(** With the generators known up to 1/1000 the record is prepared, the tree
    is refused, the edge label "a" is nontrivial, the first claim is
    refused; [check_proof] returns the conjunction, [False]. *)
Lemma check_proof_is_conjunction_example :
  iterates_set listed_once
  /\ check_proof listed_once (fun _ => free_manifold (1 # 1000) [])
       free_record = Ok false.
Proof.
  split; [exact listed_once_iterates_set|].
  apply (proj1 (proj2 (proj2 (proj2
           (check_proof_is_conjunction listed_once
              (fun _ => free_manifold (1 # 1000) [])
              listed_once_iterates_set)))
           free_record (free_solver (1 # 1000)) free_record_prepared_fine)
         false true false);
    vm_compute; reflexivity.
Defined.

(** With the generators known up to 1/100 the same record is refused by
    [tree_ok] and the first claim has a token that is not on its path, yet
    [check_proof] raises: the solver cannot decide "Aa". *)
Lemma check_proof_stages_are_eager_example :
  tree_ok (parse_claims (proof free_record)) = Ok false
  /\ forallb (fun t => mem t ["a"]) ["A"; "a"] = false
  /\ check_proof listed_once (fun _ => free_manifold (1 # 100) [])
       free_record = Raise PrecisionInsufficient.
Proof.
  split; [reflexivity|]. split; [reflexivity|].
  apply (proj2 (proj2 (proj2 (check_proof_stages_are_eager listed_once
                                (fun _ => free_manifold (1 # 100) []))))
           free_record (free_solver (1 # 100)) true
           [] ["a"] ["A"; "a"] [(["a"], ["a"])]
           free_record_prepared_coarse).
  - vm_compute; reflexivity.
  - reflexivity.
  - intros c [].
  - vm_compute; reflexivity.
Defined.

(** The four manifolds of the documentation of [is_manifold], by their
    filling coefficients, and the solver refused for the third. *)
Lemma is_manifold_gate_example :
  is_manifold (free_manifold 0 [(0, 0)]) = true
  /\ is_manifold (free_manifold 0 [(1, 2)]) = true
  /\ is_manifold (free_manifold 0 [(4, 2)]) = false
  /\ is_manifold (free_manifold 0 [(0, 0); (13 # 10, 45 # 10)]) = false
  /\ WordProblemSolver_init (free_manifold 0 [(4, 2)]) 100 [1; 1; 0]%Z
     = Raise UnsupportedTopology.
Proof.
  do 4 (split; [reflexivity|]).
  apply (proj2 (proj2 (proj2 (proj2
           (is_manifold_gate (free_manifold 0 [(4, 2)]) 100 [1; 1; 0]%Z))))).
  reflexivity.
Defined.

End OnRationalIntervals.

(** ** More on the tree *)

(** *** Every graph [tree_ok] builds *)

Lemma build_tree_ind_tokens (Q : string -> Prop) (P : nx.DiGraph -> Prop) :
  P (nx.add_node nx.empty "1") ->
  (forall T v g, Q g -> P T -> P (nx.add_edge T v (v ++ "." ++ g) g)) ->
  forall paths, Forall (Forall Q) paths -> P (fst (build_tree paths)).
Proof.
  intros Hinit Hstep paths. unfold build_tree.
  generalize ["1"]. revert Hinit. generalize (nx.add_node nx.empty "1").
  induction paths as [|path paths IH]; intros T HT leaves Hall; simpl.
  - assumption.
  - apply Forall_cons_iff in Hall. destruct Hall as [Hpath Hall].
    unfold add_path.
    assert (Hw : forall T0 vert, P T0 ->
                   P (fst (fold_left walk_step path (T0, vert)))).
    { clear -Hstep Hpath. induction path as [|g path IHp];
        intros T0 vert HT0; simpl; [assumption|].
      apply Forall_cons_iff in Hpath. destruct Hpath as [Hg Hpath].
      apply IHp; [assumption|]. now apply Hstep. }
    specialize (Hw T "1" HT).
    destruct (fold_left walk_step path (T, "1")) as [T1 v1]. simpl in Hw.
    now apply IH.
Qed.

Lemma build_tree_edges_extend (paths : list (list string)) :
  edges_extend (fst (build_tree paths)).
Proof.
  apply (build_tree_ind_tokens (fun _ => True)).
  - intros e [].
  - intros T v g _ HT e He. apply add_edge_In_edges in He.
    destruct He as [He | ->]; [now apply HT | reflexivity].
  - apply Forall_forall. intros path _. apply Forall_forall. auto.
Qed.

(** *** Prefixes *)

Lemma prefix_refl (s : string) : String.prefix s s = true.
Proof.
  induction s as [|c s IH]; simpl; [reflexivity|].
  destruct (ascii_dec c c); [assumption | contradiction].
Qed.

Lemma prefix_empty (t : string) : String.prefix EmptyString t = true.
Proof.
  now destruct t.
Qed.

Lemma prefix_app (s t : string) : String.prefix s (s ++ t) = true.
Proof.
  induction s as [|c s IH]; simpl; [apply prefix_empty|].
  destruct (ascii_dec c c); [assumption | contradiction].
Qed.

Lemma prefix_trans (s t u : string) :
  String.prefix s t = true -> String.prefix t u = true ->
  String.prefix s u = true.
Proof.
  revert t u. induction s as [|c s IH]; intros t u Hst Htu;
    [apply prefix_empty|].
  destruct t as [|ct t]; simpl in Hst; [discriminate|].
  destruct (ascii_dec c ct) as [->|]; [|discriminate].
  destruct u as [|cu u]; simpl in Htu; [discriminate|].
  destruct (ascii_dec ct cu) as [->|]; [|discriminate]. simpl.
  destruct (ascii_dec cu cu); [|contradiction]. now apply (IH t u).
Qed.

Lemma lookup_path_ok (ps : list (string * list string)) (v : string) :
  forallb path_ok ps = true ->
  forallb (fun p => startswith v p) (nx.lookup_path ps v) = true.
Proof.
  intros Hps. unfold nx.lookup_path.
  destruct (find (fun kv => String.eqb (fst kv) v) ps) as [kv|] eqn:Hf;
    [|reflexivity].
  apply find_some in Hf. destruct Hf as [Hin Heq].
  apply String.eqb_eq in Heq. subst v.
  rewrite forallb_forall in Hps. now apply Hps.
Qed.

Lemma visit_paths_ok (T : nx.DiGraph) (v w : string)
  (st : list (string * list string) * list string) :
  edges_extend T -> In w (nx.successors T v) ->
  forallb path_ok (fst st) = true ->
  forallb path_ok (fst (nx.visit v st w)) = true.
Proof.
  intros Hext Hw Hst. unfold nx.visit.
  destruct (mem w (map fst (fst st))); [assumption|]. simpl.
  rewrite forallb_app, Hst. simpl. rewrite andb_true_r.
  unfold path_ok. simpl. rewrite forallb_app. simpl.
  unfold startswith at 2. rewrite prefix_refl. rewrite !andb_true_r.
  unfold nx.successors, nx.out_edges in Hw.
  apply in_map_iff in Hw. destruct Hw as [e [Hdst He]].
  apply filter_In in He. destruct He as [He Hsrc].
  apply String.eqb_eq in Hsrc.
  assert (Hvw : String.prefix v w = true).
  { rewrite <- Hdst, (Hext e He), Hsrc. apply prefix_app. }
  pose proof (lookup_path_ok (fst st) v Hst) as Hlook.
  rewrite forallb_forall in Hlook. apply forallb_forall.
  intros p Hp. unfold startswith in *.
  apply (prefix_trans p v w); [now apply Hlook | assumption].
Qed.

Lemma visits_paths_ok (T : nx.DiGraph) (v : string) (ws : list string) :
  edges_extend T -> incl ws (nx.successors T v) ->
  forall st, forallb path_ok (fst st) = true ->
             forallb path_ok (fst (fold_left (nx.visit v) ws st)) = true.
Proof.
  intros Hext. induction ws as [|w ws IH]; intros Hincl st Hst; simpl;
    [assumption|].
  apply IH.
  - intros w' Hw'. apply Hincl. now right.
  - apply (visit_paths_ok T); auto. apply Hincl. now left.
Qed.

Lemma bfs_level_paths_ok (T : nx.DiGraph)
  (paths : list (string * list string)) (level : list string) :
  edges_extend T -> forallb path_ok paths = true ->
  forallb path_ok (fst (nx.bfs_level T paths level)) = true.
Proof.
  intros Hext Hpaths. unfold nx.bfs_level.
  change paths with (fst (paths, @nil string)) in Hpaths.
  revert Hpaths. generalize (paths, @nil string).
  induction level as [|v level IH]; intros st Hst; simpl; [assumption|].
  apply IH. apply (visits_paths_ok T v); auto. apply incl_refl.
Qed.

Lemma bfs_paths_ok (T : nx.DiGraph) :
  edges_extend T ->
  forall fuel paths level,
    forallb path_ok paths = true ->
    forallb path_ok (nx.bfs fuel T paths level) = true.
Proof.
  intros Hext. induction fuel as [|fuel IH]; intros paths level Hpaths;
    simpl; [assumption|].
  destruct level as [|v level]; [assumption|].
  pose proof (bfs_level_paths_ok T paths (v :: level) Hext Hpaths) as H.
  destruct (nx.bfs_level T paths (v :: level)) as [paths' next].
  now apply IH.
Qed.

Lemma build_tree_prefixes_ok (paths : list (list string)) :
  prefixes_ok
    (nx.single_source_shortest_path (fst (build_tree paths)) "1") = true.
Proof.
  unfold prefixes_ok, nx.single_source_shortest_path.
  apply (bfs_paths_ok _ (build_tree_edges_extend paths)).
  reflexivity.
Qed.

(** *** The shape of an accepted tree *)

Lemma tree_ok_true_iff (claims : list (list string * list string)) :
  tree_ok claims = Ok true
  <-> nx.is_branching (fst (build_tree (paths_to_root claims))) = Ok true
      /\ check_degrees (fst (build_tree (paths_to_root claims)))
           (snd (build_tree (paths_to_root claims)))
           (nx.nodes (fst (build_tree (paths_to_root claims)))) 0
         = Ok (Some (List.length (snd (build_tree (paths_to_root claims))))).
Proof.
  split.
  - intros H. apply tree_ok_true_checks in H. simpl in H. tauto.
  - intros [Hb Hd]. unfold tree_ok.
    pose proof (build_tree_prefixes_ok (paths_to_root claims)) as Hp.
    destruct (build_tree (paths_to_root claims)) as [T leaves].
    simpl in *. rewrite Hb. simpl. rewrite Hd. simpl.
    rewrite Nat.eqb_refl. simpl. now rewrite Hp.
Qed.

(** X2: the last check of [tree_ok], which its comment expects to be
    redundant, is: the paths [single_source_shortest_path] finds from the
    root in the graph built from any list of paths are made of prefixes of
    the name of the node they lead to.  So [tree_ok] returns [True] exactly
    when the graph is a branching and the loop over the nodes runs to its
    end with as many leaves as [leaves] has items. *)
Theorem tree_ok_prefix_check_redundant
  (claims : list (list string * list string)) :
  prefixes_ok
    (nx.single_source_shortest_path
       (fst (build_tree (paths_to_root claims))) "1") = true
  /\ (tree_ok claims = Ok true
      <-> nx.is_branching (fst (build_tree (paths_to_root claims))) = Ok true
          /\ check_degrees (fst (build_tree (paths_to_root claims)))
               (snd (build_tree (paths_to_root claims)))
               (nx.nodes (fst (build_tree (paths_to_root claims)))) 0
             = Ok (Some (List.length
                           (snd (build_tree (paths_to_root claims)))))).
Proof.
  split; [apply build_tree_prefixes_ok | apply tree_ok_true_iff].
Qed.

Lemma walk_not_root (vert : string) (path : list string) :
  path <> [] -> walk vert path <> vert.
Proof.
  intros Hne Heq.
  assert (Hlen : forall p v, (String.length v <= String.length (walk v p))%nat
                    /\ (p <> [] ->
                        String.length v < String.length (walk v p))%nat).
  { induction p as [|g p IH]; intros v; simpl.
    - split; [lia | congruence].
    - destruct (IH (v ++ "." ++ g)) as [H1 _].
      rewrite length_app_string in H1. simpl in H1. split; intros; lia. }
  destruct (Hlen path vert) as [_ H]. specialize (H Hne).
  rewrite Heq in H. lia.
Qed.

Lemma walk_app (vert : string) (p q : list string) :
  walk vert (p ++ q) = walk (walk vert p) q.
Proof.
  unfold walk. apply fold_left_app.
Qed.

Lemma walk_steps_arc (p : list string) (g : string) (rest : list string) :
  forall T vert,
    tree_inv T -> In vert (nx.nodes T) ->
    has_arc (fst (fold_left walk_step (p ++ g :: rest) (T, vert)))
            (walk vert p) (walk vert p ++ "." ++ g).
Proof.
  induction p as [|h p IH]; intros T vert HT Hvert.
  - pose proof (walk_steps (g :: rest) T vert HT Hvert) as H. simpl in H.
    destruct H as (_ & _ & _ & _ & _ & Hfirst). simpl.
    now apply (Hfirst g rest).
  - simpl. destruct (add_edge_tree_inv T vert h HT Hvert) as [HT1 Hv1].
    apply (IH _ _ HT1 Hv1).
Qed.

Lemma build_tree_arcs (paths : list (list string)) :
  forall p g rest, In (p ++ g :: rest)%list paths ->
    has_arc (fst (build_tree paths)) (walk "1" p) (walk "1" p ++ "." ++ g).
Proof.
  intros p g rest. unfold build_tree.
  assert (Hgen : forall T leaves,
            tree_inv T -> (forall x, In x leaves -> In x (nx.nodes T)) ->
            In (p ++ g :: rest)%list paths ->
            has_arc (fst (fold_left build_step paths (T, leaves)))
                    (walk "1" p) (walk "1" p ++ "." ++ g)).
  { induction paths as [|path paths IH]; intros T leaves HT Hl Hin;
      [destruct Hin|].
    simpl. unfold add_path.
    pose proof (walk_steps path T "1" HT (tree_inv_root_In T HT)) as Hw.
    simpl in Hw.
    pose proof (walk_steps_arc p g rest T "1" HT (tree_inv_root_In T HT))
      as Harc.
    destruct Hin as [-> | Hin].
    - destruct (fold_left walk_step (p ++ g :: rest) (T, "1")) as [T1 v1].
      simpl in Hw, Harc. destruct Hw as (HT1 & Hv1 & _ & _ & Hn1 & _).
      assert (Hl1 : forall x, In x (leaves ++ [v1])%list ->
                              In x (nx.nodes T1)).
      { intros x Hx. apply in_app_iff in Hx.
        destruct Hx as [Hx | [<- | []]]; auto. }
      destruct (build_steps paths T1 (leaves ++ [v1])%list HT1 Hl1)
        as (_ & _ & _ & Hkeep & _).
      now apply Hkeep.
    - destruct (fold_left walk_step path (T, "1")) as [T1 v1].
      simpl in Hw. destruct Hw as (HT1 & Hv1 & _ & _ & Hn1 & _).
      apply IH; auto.
      intros x Hx. apply in_app_iff in Hx.
      destruct Hx as [Hx | [<- | []]]; auto. }
  apply Hgen.
  - apply tree_inv_init.
  - intros x [<- | []]. now left.
Qed.

Lemma has_arc_out_degree (T : nx.DiGraph) (u v : string) :
  has_arc T u v -> (1 <= nx.out_degree T u)%nat.
Proof.
  intros [e (Hin & Hs & _)]. unfold nx.out_degree, nx.out_edges.
  assert (H : In e (filter (fun e0 => String.eqb (nx.src e0) u) (nx.edges T))).
  { apply filter_In. split; [assumption | now apply String.eqb_eq]. }
  destruct (filter _ (nx.edges T)); simpl in *; [contradiction | lia].
Qed.

(** X4: a list of claims that [tree_ok] accepts is not empty, has no empty
    path, has no path twice, and has no path that continues another path of
    the list. *)
Theorem tree_ok_accepted_paths (claims : list (list string * list string)) :
  tree_ok claims = Ok true ->
  claims <> []
  /\ (forall path, In path (paths_to_root claims) -> path <> [])
  /\ NoDup (paths_to_root claims)
  /\ (forall p g rest, In p (paths_to_root claims) ->
                       ~ In (p ++ g :: rest)%list (paths_to_root claims)).
Proof.
  intros Hok. split_ands.
  - intros ->. discriminate.
  - now apply tree_ok_true_paths_nonempty.
  - pose proof (tree_ok_true_leaves_NoDup claims Hok) as Hnd.
    rewrite (proj1 (proj2 (build_tree_spec (paths_to_root claims)))) in Hnd.
    apply NoDup_cons_iff in Hnd. destruct Hnd as [_ Hnd].
    now apply NoDup_map_inv in Hnd.
  - intros p g rest Hp Hq.
    pose proof (tree_ok_true_paths_nonempty claims Hok p Hp) as Hne.
    pose proof (build_tree_spec (paths_to_root claims)) as Hb. simpl in Hb.
    destruct Hb as (HT & Hl & Hin & _).
    pose proof (build_tree_arcs (paths_to_root claims) p g rest Hq) as Harc.
    apply tree_ok_true_checks in Hok. simpl in Hok.
    destruct Hok as (_ & Hdeg & _).
    apply check_degrees_Some in Hdeg. destruct Hdeg as (_ & Hleaf & _).
    assert (Hmem : In (walk "1" p) (snd (build_tree (paths_to_root claims)))).
    { rewrite Hl. right. now apply in_map. }
    specialize (Hleaf (walk "1" p) (Hin _ Hmem) (proj2 (mem_In _ _) Hmem)).
    pose proof (in_degree_pos _ _ HT (Hin _ Hmem) (walk_not_root "1" p Hne)).
    pose proof (has_arc_out_degree _ _ _ Harc).
    unfold nx.degree in Hleaf. lia.
Qed.

Lemma out_edges_two (T : nx.DiGraph) (v w0 w1 : string) :
  edges_extend T -> nx.adj_labels T v = [w0; w1] ->
  nx.successors T v = [v ++ "." ++ w0; v ++ "." ++ w1].
Proof.
  intros Hext. unfold nx.adj_labels, nx.successors.
  assert (Hall : forall e, In e (nx.out_edges T v) ->
                           nx.dst e = v ++ "." ++ nx.label e).
  { intros e He. unfold nx.out_edges in He. apply filter_In in He.
    destruct He as [He Hs]. apply String.eqb_eq in Hs.
    now rewrite (Hext e He), Hs. }
  destruct (nx.out_edges T v) as [|e0 [|e1 [|e2 es]]]; try discriminate.
  simpl. intros [= <- <-].
  rewrite (Hall e0), (Hall e1); simpl; auto.
Qed.

(** X5: in the graph of an accepted list of claims every node of [leaves]
    has total degree 1; every other node has one edge in and two edges out,
    whose labels are inverse to each other and whose ends are named after
    the node and the labels. *)
Theorem tree_ok_accepted_nodes (claims : list (list string * list string)) :
  tree_ok claims = Ok true ->
  let T := fst (build_tree (paths_to_root claims)) in
  let leaves := snd (build_tree (paths_to_root claims)) in
  forall v, In v (nx.nodes T) ->
    (In v leaves -> nx.degree T v = 1%nat)
    /\ (~ In v leaves ->
        nx.in_degree T v = 1%nat
        /\ exists w0,
             nx.adj_labels T v = [w0; invert_word w0]
             /\ nx.successors T v
                = [v ++ "." ++ w0; v ++ "." ++ invert_word w0]).
Proof.
  intros Hok T leaves v Hv.
  pose proof (build_tree_spec (paths_to_root claims)) as Hb. simpl in Hb.
  destruct Hb as (HT & Hl & _ & _).
  apply tree_ok_true_checks in Hok. simpl in Hok.
  destruct Hok as (Hbr & Hdeg & _).
  apply check_degrees_Some in Hdeg. destruct Hdeg as (_ & Hleaf & Hinner).
  fold T in HT, Hbr, Hleaf, Hinner. fold leaves in Hl, Hleaf, Hinner.
  split.
  - intros Hin. apply Hleaf; [assumption | now apply mem_In].
  - intros Hnot.
    destruct (Hinner v Hv (proj2 (mem_false_not_In _ _) Hnot))
      as (Hd & w0 & Hadj).
    assert (Hne : v <> "1").
    { intros ->. apply Hnot. rewrite Hl. now left. }
    pose proof (in_degree_pos T v HT Hv Hne).
    pose proof (in_degree_le_max T v Hv).
    pose proof (is_branching_max T Hbr).
    split; [lia|]. exists w0. split; [assumption|].
    apply out_edges_two; [|assumption].
    apply build_tree_edges_extend.
Qed.

(** X1: [tree_ok] returns [True] or [False] on every list of claims: the
    graph it hands to [is_branching] has a node, and the node whose two
    labels it unpacks has two edges out. *)
Theorem tree_ok_never_raises (claims : list (list string * list string)) :
  (tree_ok claims = Ok true \/ tree_ok claims = Ok false)
  /\ nx.nodes (fst (build_tree (paths_to_root claims))) <> []
  /\ (forall vs n,
        nx.is_branching (fst (build_tree (paths_to_root claims))) = Ok true ->
        incl vs (nx.nodes (fst (build_tree (paths_to_root claims)))) ->
        check_degrees (fst (build_tree (paths_to_root claims)))
          (snd (build_tree (paths_to_root claims))) vs n
        <> Raise UnpackError).
Proof.
  pose proof (build_tree_spec (paths_to_root claims)) as Hb. simpl in Hb.
  destruct Hb as (HT & Hl & _ & _).
  split_ands.
  - destruct (tree_ok_total claims) as [[|] H]; auto.
  - intros H. apply tree_inv_root_In in HT. rewrite H in HT. destruct HT.
  - intros vs n Hbr Hincl.
    destruct (check_degrees_total _ (snd (build_tree (paths_to_root claims)))
                HT (is_branching_max _ Hbr)
                ltac:(rewrite Hl; now left) vs Hincl n) as [r ->].
    discriminate.
Qed.

(** *** The branching check on the graphs [tree_ok] builds *)

Lemma root_reaches_all (T : nx.DiGraph) :
  tree_inv T -> edges_extend T ->
  forall v, In v (nx.nodes T) ->
            In v (nx.grow_n (List.length (nx.nodes T)) T ["1"]).
Proof.
  intros HT Hext.
  destruct (component_search_complete T "1" (inv_edges T HT)
              (tree_inv_root_In T HT)) as (_ & Hroot & Hclosed).
  set (R := nx.grow_n (List.length (nx.nodes T)) T ["1"]) in *.
  assert (Hind : forall n v, (String.length v <= n)%nat ->
                             In v (nx.nodes T) -> In v R).
  { induction n as [|n IH]; intros v Hlen Hv.
    - destruct (inv_in T HT v Hv) as [-> | [u [e (He & Hs & Hd)]]];
        [assumption|].
      rewrite <- Hd, (Hext e He), length_app_string in Hlen.
      simpl in Hlen. lia.
    - destruct (inv_in T HT v Hv) as [-> | [u [e (He & Hs & Hd)]]];
        [assumption|].
      assert (Hu : In (nx.src e) R).
      { apply IH.
        - rewrite <- Hd, (Hext e He), length_app_string in Hlen.
          simpl in Hlen. lia.
        - apply (inv_edges T HT e He). }
      apply mem_In. rewrite <- Hd, <- (Hclosed e He). now apply mem_In. }
  intros v Hv. now apply (Hind (String.length v)).
Qed.

Lemma filter_all {A : Type} (f : A -> bool) (l : list A) :
  (forall x, In x l -> f x = true) -> filter f l = l.
Proof.
  induction l as [|a l IH]; intros H; simpl; [reflexivity|].
  rewrite (H a (or_introl eq_refl)). f_equal. apply IH.
  intros x Hx. apply H. now right.
Qed.

Lemma components_from_seen (T : nx.DiGraph) (todo seen : list string) :
  incl todo seen -> nx.components_from T todo seen = [].
Proof.
  induction todo as [|v todo IH]; intros Hincl; simpl; [reflexivity|].
  rewrite (proj2 (mem_In v seen) (Hincl v (or_introl eq_refl))).
  apply IH. intros x Hx. apply Hincl. now right.
Qed.

Lemma one_component (T : nx.DiGraph) :
  tree_inv T -> edges_extend T ->
  nx.weakly_connected_components T = [nx.nodes T].
Proof.
  intros HT Hext. unfold nx.weakly_connected_components.
  assert (Hc : nx.component T "1" = nx.nodes T).
  { unfold nx.component. apply filter_all. intros v Hv.
    now apply mem_In, root_reaches_all. }
  pose proof (inv_root T HT) as Hr.
  destruct (nx.nodes T) as [|r rest] eqn:Hn; [discriminate|].
  simpl in Hr. injection Hr as ->. simpl. rewrite Hc. f_equal.
  apply components_from_seen. intros x Hx. now right.
Qed.

Lemma indicator_sum (l : list string) (x : string) :
  NoDup l -> In x l ->
  list_sum (map (fun v => if String.eqb x v then 1 else 0)%nat l) = 1%nat.
Proof.
  induction l as [|a l IH]; intros Hnd Hin; [destruct Hin|].
  apply NoDup_cons_iff in Hnd. destruct Hnd as [Ha Hnd]. simpl.
  destruct (String.eqb x a) eqn:Hxa.
  - apply String.eqb_eq in Hxa. subst a. f_equal.
    clear IH Hin Hnd. induction l as [|b l IH]; [reflexivity|]. simpl.
    destruct (String.eqb x b) eqn:Hxb.
    + apply String.eqb_eq in Hxb. subst b. exfalso. apply Ha. now left.
    + apply IH. intros H. apply Ha. now right.
  - destruct Hin as [-> | Hin]; [now rewrite String.eqb_refl in Hxa|].
    now apply IH.
Qed.

Lemma list_sum_map_add {A : Type} (f g : A -> nat) (l : list A) :
  list_sum (map (fun x => f x + g x)%nat l)
  = (list_sum (map f l) + list_sum (map g l))%nat.
Proof.
  induction l as [|a l IH]; simpl; [reflexivity | lia].
Qed.

Lemma count_by_dst (l : list string) (es : list nx.edge) :
  NoDup l -> (forall e, In e es -> In (nx.dst e) l) ->
  List.length es
  = list_sum
      (map (fun v => List.length
                       (filter (fun e => String.eqb (nx.dst e) v) es)) l).
Proof.
  intros Hnd. induction es as [|e es IH]; intros Hdst; simpl.
  - induction l as [|a l IHl]; [reflexivity|]. simpl.
    apply NoDup_cons_iff in Hnd. now apply IHl.
  - transitivity
      (list_sum (map (fun v => if String.eqb (nx.dst e) v then 1 else 0)%nat l)
       + list_sum
           (map (fun v => List.length
                            (filter (fun e0 => String.eqb (nx.dst e0) v) es))
                l))%nat.
    + rewrite (indicator_sum l (nx.dst e) Hnd (Hdst e (or_introl eq_refl))).
      rewrite <- IH by (intros e' He'; apply Hdst; now right). reflexivity.
    + rewrite <- list_sum_map_add. f_equal. apply map_ext. intros v.
      destruct (String.eqb (nx.dst e) v); reflexivity.
Qed.

Lemma sum_in_degrees (T : nx.DiGraph) :
  tree_inv T -> (nx.max_in_degree T <= 1)%nat ->
  list_sum (map (nx.in_degree T) (nx.nodes T))
  = (List.length (nx.nodes T) - 1)%nat.
Proof.
  intros HT Hmax.
  pose proof (inv_root T HT) as Hr. pose proof (inv_nodup T HT) as Hnd.
  assert (Hone : forall v, In v (nx.nodes T) -> v <> "1" ->
                           nx.in_degree T v = 1%nat).
  { intros v Hv Hne. pose proof (in_degree_pos T v HT Hv Hne).
    pose proof (in_degree_le_max T v Hv). lia. }
  pose proof (root_in_degree T HT) as Hroot.
  destruct (nx.nodes T) as [|r rest]; [discriminate|].
  simpl in Hr. injection Hr as ->. simpl. rewrite Hroot. simpl.
  rewrite Nat.sub_0_r. apply NoDup_cons_iff in Hnd. destruct Hnd as [Hr _].
  assert (Hrest : forall v, In v rest -> nx.in_degree T v = 1%nat).
  { intros v Hv. apply Hone; [now right|]. intros ->. contradiction. }
  clear -Hrest. induction rest as [|a rest IH]; [reflexivity|]. simpl.
  rewrite (Hrest a (or_introl eq_refl)), IH; [reflexivity|].
  intros v Hv. apply Hrest. now right.
Qed.

Lemma number_of_edges (T : nx.DiGraph) :
  tree_inv T -> (nx.max_in_degree T <= 1)%nat ->
  nx.subgraph_number_of_edges T (nx.nodes T)
  = (List.length (nx.nodes T) - 1)%nat.
Proof.
  intros HT Hmax. unfold nx.subgraph_number_of_edges.
  rewrite filter_all.
  - rewrite <- (sum_in_degrees T HT Hmax).
    apply (count_by_dst (nx.nodes T) (nx.edges T) (inv_nodup T HT)).
    intros e He. apply (inv_edges T HT e He).
  - intros e He. destruct (inv_edges T HT e He) as [Hs Hd].
    apply andb_true_iff. split; now apply mem_In.
Qed.

Lemma is_branching_built (T : nx.DiGraph) :
  tree_inv T -> edges_extend T ->
  nx.is_branching T = Ok (nx.max_in_degree T <=? 1)%nat.
Proof.
  intros HT Hext. unfold nx.is_branching, nx.is_forest.
  rewrite (one_component T HT Hext).
  pose proof (tree_inv_root_In T HT) as Hr.
  destruct (nx.nodes T) as [|r rest] eqn:Hn; [destruct Hr|]. simpl.
  destruct (nx.max_in_degree T <=? 1)%nat eqn:Hmax.
  - apply Nat.leb_le in Hmax.
    pose proof (number_of_edges T HT Hmax) as Hnum. rewrite Hn in Hnum.
    simpl in Hnum. rewrite Hnum, Nat.eqb_refl. reflexivity.
  - now destruct (_ && true).
Qed.

(** *** Splitting at the dots *)

Lemma split_not_nil (sep : ascii) (s : string) : split sep s <> [].
Proof.
  destruct s as [|c r]; simpl; [discriminate|].
  destruct (Ascii.eqb c sep); [discriminate|].
  destruct (split sep r); discriminate.
Qed.

Lemma split_dot_free (s : string) :
  forall t, In t (split "." s) -> dot_free t = true.
Proof.
  induction s as [|c r IH]; simpl.
  - intros t [<- | []]. reflexivity.
  - destruct (Ascii.eqb c ".") eqn:Hc.
    + intros t [<- | Ht]; [reflexivity | now apply IH].
    + pose proof (split_not_nil "." r) as Hne.
      destruct (split "." r) as [|h tl]; [contradiction|].
      intros t [<- | Ht].
      * simpl. rewrite Hc. simpl. apply IH. now left.
      * apply IH. now right.
Qed.

Lemma split_concat (s : string) :
  String.concat "." (split "." s) = s.
Proof.
  induction s as [|c r IH]; [reflexivity|]. simpl.
  pose proof (split_not_nil "." r) as Hne.
  destruct (Ascii.eqb c ".") eqn:Hc.
  - apply Ascii.eqb_eq in Hc. subst c.
    destruct (split "." r) as [|h tl]; [contradiction|].
    simpl in *. now rewrite IH.
  - destruct (split "." r) as [|h tl]; [contradiction|].
    simpl in *. destruct tl; simpl in *; now rewrite <- IH.
Qed.

Lemma split_of_dot_free (s : string) :
  dot_free s = true -> split "." s = [s].
Proof.
  induction s as [|c r IH]; simpl; [reflexivity|].
  intros H. apply andb_true_iff in H. destruct H as [Hc Hr].
  apply negb_true_iff in Hc. rewrite Hc, (IH Hr). reflexivity.
Qed.

(** *** Node names with labels that have no dot *)

Lemma dot_free_app_dot (a b : string) : dot_free (a ++ "." ++ b) = false.
Proof.
  induction a as [|c a IH]; simpl in *; [reflexivity|].
  rewrite IH. apply andb_false_r.
Qed.

Lemma child_name_inj (u1 g1 u2 g2 : string) :
  dot_free g1 = true -> dot_free g2 = true ->
  u1 ++ "." ++ g1 = u2 ++ "." ++ g2 -> u1 = u2 /\ g1 = g2.
Proof.
  intros H1 H2. revert u2.
  induction u1 as [|c u1 IH]; intros [|c2 u2] Heq; simpl in Heq.
  - injection Heq as ->. auto.
  - injection Heq as <- ->. pose proof (dot_free_app_dot u2 g2) as Hd.
    simpl in Hd. congruence.
  - injection Heq as -> <-. pose proof (dot_free_app_dot u1 g1) as Hd.
    simpl in Hd. congruence.
  - injection Heq as -> Heq. destruct (IH u2 Heq) as [-> ->]. auto.
Qed.

Lemma add_edge_ends (T : nx.DiGraph) (u v g : string) :
  NoDup (map edge_ends (nx.edges T)) ->
  NoDup (map edge_ends (nx.edges (nx.add_edge T u v g))).
Proof.
  intros Hnd. unfold nx.add_edge. rewrite !add_node_edges.
  destruct (existsb (nx.is_edge u v) (nx.edges T)) eqn:Hex; simpl.
  - rewrite map_map.
    replace (map (fun x => edge_ends (nx.set_label u v g x)) (nx.edges T))
      with (map edge_ends (nx.edges T)); [assumption|].
    apply map_ext. intros e. unfold nx.set_label.
    destruct (nx.is_edge u v e) eqn:He; [|reflexivity].
    apply is_edge_true in He. destruct He as [<- <-]. reflexivity.
  - rewrite map_app. simpl. apply NoDup_app; [assumption | |].
    + repeat constructor. simpl. tauto.
    + intros x Hx [<- | []]. apply in_map_iff in Hx.
      destruct Hx as [e [Hends He]]. unfold edge_ends in Hends.
      injection Hends as Hs Hd.
      assert (Hfalse : existsb (nx.is_edge u v) (nx.edges T) = true).
      { apply existsb_exists. exists e. split; [assumption|].
        now apply is_edge_true. }
      congruence.
Qed.

Lemma filter_at_most_one {A B : Type} (f : A -> B) (p : A -> bool)
  (l : list A) :
  NoDup (map f l) ->
  (forall x y, In x l -> In y l -> p x = true -> p y = true -> f x = f y) ->
  (List.length (filter p l) <= 1)%nat.
Proof.
  induction l as [|a l IH]; intros Hnd Hsame; simpl; [lia|].
  apply NoDup_cons_iff in Hnd. destruct Hnd as [Ha Hnd].
  assert (IH' : (List.length (filter p l) <= 1)%nat).
  { apply IH; [assumption|]. intros x y Hx Hy. apply Hsame; now right. }
  destruct (p a) eqn:Hpa; [|assumption]. simpl.
  destruct (filter p l) as [|y ys] eqn:Hf; [simpl; lia|]. exfalso.
  assert (Hy : In y (filter p l)) by (rewrite Hf; now left).
  apply filter_In in Hy. destruct Hy as [Hy Hpy]. apply Ha.
  rewrite (Hsame a y (or_introl eq_refl) (or_intror Hy) Hpa Hpy).
  now apply in_map.
Qed.

Lemma max_in_degree_le (T : nx.DiGraph) (n : nat) :
  (forall v, In v (nx.nodes T) -> (nx.in_degree T v <= n)%nat) ->
  (nx.max_in_degree T <= n)%nat.
Proof.
  unfold nx.max_in_degree. induction (nx.nodes T) as [|v vs IH]; intros H;
    simpl; [lia|].
  apply Nat.max_lub; [apply H; now left | apply IH].
  intros w Hw. apply H. now right.
Qed.

Lemma build_tree_in_degree (paths : list (list string)) :
  Forall (Forall (fun g => dot_free g = true)) paths ->
  (nx.max_in_degree (fst (build_tree paths)) <= 1)%nat.
Proof.
  intros Hall.
  assert (Hinv : NoDup (map edge_ends (nx.edges (fst (build_tree paths))))
                 /\ forall e, In e (nx.edges (fst (build_tree paths))) ->
                              dot_free (nx.label e) = true).
  { apply (build_tree_ind_tokens (fun g => dot_free g = true)
             (fun T => NoDup (map edge_ends (nx.edges T))
                       /\ forall e, In e (nx.edges T) ->
                                    dot_free (nx.label e) = true)).
    - split; [constructor | intros e []].
    - intros T v g Hg [Hnd Hlab]. split; [now apply add_edge_ends|].
      intros e He. apply add_edge_In_edges in He.
      destruct He as [He | ->]; [now apply Hlab | assumption].
    - assumption. }
  destruct Hinv as [Hnd Hlab].
  pose proof (build_tree_edges_extend paths) as Hext.
  apply max_in_degree_le. intros v _. unfold nx.in_degree, nx.in_edges.
  apply (filter_at_most_one edge_ends); [assumption|].
  intros x y Hx Hy Hpx Hpy. apply String.eqb_eq in Hpx, Hpy.
  unfold edge_ends. rewrite Hpx, Hpy. f_equal.
  rewrite (Hext x Hx) in Hpx. rewrite (Hext y Hy) in Hpy.
  rewrite <- Hpy in Hpx.
  now destruct (child_name_inj _ _ _ _ (Hlab x Hx) (Hlab y Hy) Hpx).
Qed.

Lemma parse_claims_dot_free (p : list (string * string)) :
  Forall (Forall (fun g => dot_free g = true))
         (paths_to_root (parse_claims p)).
Proof.
  unfold paths_to_root, parse_claims. rewrite map_map. simpl.
  apply Forall_forall. intros path Hpath. apply in_map_iff in Hpath.
  destruct Hpath as [ab [<- _]]. apply Forall_forall. apply split_dot_free.
Qed.

(** X3: on the graph [tree_ok] builds, [is_branching] returns [True] exactly
    when no node has two edges in; it always does when no edge label has a
    dot, as in the claims [check_proof] obtains with [split]: for them
    [tree_ok] is decided by the loop over the degrees and the count of the
    leaves. *)
Theorem tree_ok_branching_check (paths : list (list string)) :
  nx.is_branching (fst (build_tree paths))
  = Ok (nx.max_in_degree (fst (build_tree paths)) <=? 1)%nat
  /\ (Forall (Forall (fun g => dot_free g = true)) paths ->
      nx.is_branching (fst (build_tree paths)) = Ok true)
  /\ (forall p : list (string * string),
        tree_ok (parse_claims p) = Ok true
        <-> check_degrees (fst (build_tree (paths_to_root (parse_claims p))))
              (snd (build_tree (paths_to_root (parse_claims p))))
              (nx.nodes (fst (build_tree (paths_to_root (parse_claims p)))))
              0
            = Ok (Some (List.length
                          (snd (build_tree
                                  (paths_to_root (parse_claims p))))))).
Proof.
  assert (H1 : forall ps, nx.is_branching (fst (build_tree ps))
                 = Ok (nx.max_in_degree (fst (build_tree ps)) <=? 1)%nat).
  { intros ps. apply is_branching_built.
    - apply (build_tree_spec ps).
    - apply build_tree_edges_extend. }
  assert (H2 : forall ps, Forall (Forall (fun g => dot_free g = true)) ps ->
                 nx.is_branching (fst (build_tree ps)) = Ok true).
  { intros ps Hall. rewrite H1. f_equal. apply Nat.leb_le.
    now apply build_tree_in_degree. }
  split_ands; auto.
  intros p. rewrite tree_ok_true_iff.
  pose proof (H2 _ (parse_claims_dot_free p)). tauto.
Qed.

(** *** The size of an accepted tree *)

Lemma count_by_src (l : list string) (es : list nx.edge) :
  NoDup l -> (forall e, In e es -> In (nx.src e) l) ->
  List.length es
  = list_sum
      (map (fun v => List.length
                       (filter (fun e => String.eqb (nx.src e) v) es)) l).
Proof.
  intros Hnd. induction es as [|e es IH]; intros Hsrc; simpl.
  - induction l as [|a l IHl]; [reflexivity|]. simpl.
    apply NoDup_cons_iff in Hnd. now apply IHl.
  - transitivity
      (list_sum (map (fun v => if String.eqb (nx.src e) v then 1 else 0)%nat l)
       + list_sum
           (map (fun v => List.length
                            (filter (fun e0 => String.eqb (nx.src e0) v) es))
                l))%nat.
    + rewrite (indicator_sum l (nx.src e) Hnd (Hsrc e (or_introl eq_refl))).
      rewrite <- IH by (intros e' He'; apply Hsrc; now right). reflexivity.
    + rewrite <- list_sum_map_add. f_equal. apply map_ext. intros v.
      destruct (String.eqb (nx.src e) v); reflexivity.
Qed.

Lemma sum_two_degrees (d : string -> nat) (p : string -> bool)
  (l : list string) :
  (forall v, In v l -> (p v = true -> d v = 1%nat)
                       /\ (p v = false -> d v = 3%nat)) ->
  list_sum (map d l)
  = (List.length (filter p l)
     + 3 * List.length (filter (fun v => negb (p v)) l))%nat.
Proof.
  induction l as [|a l IH]; intros H; [reflexivity|]. simpl.
  rewrite IH by (intros v Hv; apply H; now right).
  destruct (H a (or_introl eq_refl)) as [H1 H3].
  destruct (p a); simpl; [rewrite H1 | rewrite H3]; auto; lia.
Qed.

Lemma filter_split_length {A : Type} (p : A -> bool) (l : list A) :
  (List.length (filter p l) + List.length (filter (fun v => negb (p v)) l)
   = List.length l)%nat.
Proof.
  induction l as [|a l IH]; [reflexivity|]. simpl.
  destruct (p a); simpl; lia.
Qed.

(** X6: the graph of an accepted list of n claims has 2 n nodes and
    2 n - 1 edges; n + 1 of the nodes are in [leaves], the root among them,
    and n - 1 are not. *)
Theorem tree_ok_accepted_size (claims : list (list string * list string)) :
  tree_ok claims = Ok true ->
  let T := fst (build_tree (paths_to_root claims)) in
  let leaves := snd (build_tree (paths_to_root claims)) in
  List.length (nx.nodes T) = (2 * List.length claims)%nat
  /\ List.length (nx.edges T) = (2 * List.length claims - 1)%nat
  /\ List.length (filter (fun v => mem v leaves) (nx.nodes T))
     = (List.length claims + 1)%nat
  /\ List.length (filter (fun v => negb (mem v leaves)) (nx.nodes T))
     = (List.length claims - 1)%nat.
Proof.
  intros Hok T leaves.
  pose proof (build_tree_spec (paths_to_root claims)) as Hb. simpl in Hb.
  destruct Hb as (HT & Hl & _ & _).
  pose proof (tree_ok_true_checks claims Hok) as Hc. simpl in Hc.
  destruct Hc as (Hbr & Hdeg & _).
  apply check_degrees_Some in Hdeg. destruct Hdeg as (Hcount & Hleaf & Hinner).
  fold T in HT, Hbr, Hcount, Hleaf, Hinner.
  fold leaves in Hl, Hcount, Hleaf, Hinner.
  pose proof (is_branching_max T Hbr) as Hmax.
  assert (Hlen : List.length leaves = S (List.length claims)).
  { rewrite Hl. simpl. unfold paths_to_root. now rewrite !length_map. }
  assert (Hedges : List.length (nx.edges T)
                   = (List.length (nx.nodes T) - 1)%nat).
  { rewrite <- (sum_in_degrees T HT Hmax).
    apply (count_by_dst (nx.nodes T) (nx.edges T) (inv_nodup T HT)).
    intros e He. apply (inv_edges T HT e He). }
  assert (Hout : List.length (nx.edges T)
                 = list_sum (map (nx.out_degree T) (nx.nodes T))).
  { apply (count_by_src (nx.nodes T) (nx.edges T) (inv_nodup T HT)).
    intros e He. apply (inv_edges T HT e He). }
  assert (Hsum : list_sum (map (nx.degree T) (nx.nodes T))
                 = (2 * List.length (nx.edges T))%nat).
  { unfold nx.degree. rewrite list_sum_map_add, <- Hout.
    rewrite (sum_in_degrees T HT Hmax), Hedges. lia. }
  rewrite (sum_two_degrees (nx.degree T) (fun v => mem v leaves)) in Hsum.
  2: { intros v Hv. split; intros Hm.
       - now apply Hleaf.
       - now apply Hinner. }
  pose proof (filter_split_length (fun v => mem v leaves) (nx.nodes T)).
  pose proof (tree_inv_root_In T HT) as Hroot.
  assert (1 <= List.length (nx.nodes T))%nat.
  { destruct (nx.nodes T); [destruct Hroot | simpl; lia]. }
  simpl in Hcount. lia.
Qed.

(** ** More on the solver and the checker *)

(** *** Inverses of products *)

Lemma invert_word_app (u v : string) :
  invert_word (u ++ v) = invert_word v ++ invert_word u.
Proof.
  unfold invert_word. now rewrite swapcase_app, reversed_app.
Qed.

Lemma invert_word_twice (w : string) : invert_word (invert_word w) = w.
Proof.
  unfold invert_word.
  now rewrite swapcase_reversed, reversed_involutive, swapcase_involutive.
Qed.

Lemma join_app (xs ys : list string) :
  join (xs ++ ys)%list = join xs ++ join ys.
Proof.
  unfold join. induction xs as [|x xs IH]; simpl; [reflexivity|].
  destruct xs as [|x' xs]; simpl in *.
  - destruct ys; simpl; [now rewrite string_app_nil_r | reflexivity].
  - rewrite IH. now rewrite string_app_assoc.
Qed.

Lemma join_cons (x : string) (xs : list string) :
  join (x :: xs) = x ++ join xs.
Proof.
  unfold join. simpl. destruct xs; simpl;
    [now rewrite string_app_nil_r | reflexivity].
Qed.

(** X7: the inverse of a product of words is the product of the inverses, in
    the opposite order. *)
Theorem invert_word_join (ws : list string) :
  invert_word (join ws) = join (rev (map invert_word ws))
  /\ (forall u v, invert_word (u ++ v) = invert_word v ++ invert_word u)
  /\ (forall u v, invert_word u = invert_word v -> u = v).
Proof.
  split_ands.
  - induction ws as [|w ws IH]; [reflexivity|].
    rewrite join_cons, invert_word_app, IH. simpl.
    rewrite join_app. now f_equal.
  - apply invert_word_app.
  - intros u v H. apply (f_equal invert_word) in H.
    now rewrite !invert_word_twice in H.
Qed.

(** *** Pairs of generators *)

Lemma in_pairs_cons {A : Type} (a : A) (rest : list A) (x y : A) :
  In (x, y) (pairs (a :: rest))
  <-> (x = a /\ In y rest) \/ In (x, y) (pairs rest).
Proof.
  simpl. rewrite in_app_iff, in_map_iff. split.
  - intros [[z [[= <- <-] Hz]] | H]; auto.
  - intros [[-> Hy] | H]; auto. left. now exists y.
Qed.

Lemma length_pairs {A : Type} (xs : list A) :
  (2 * List.length (pairs xs)
   = List.length xs * (List.length xs - 1))%nat.
Proof.
  induction xs as [|x xs IH]; [reflexivity|].
  simpl pairs. rewrite length_app, length_map.
  change (List.length (x :: xs)) with (S (List.length xs)).
  destruct (List.length xs) as [|n]; simpl in *; lia.
Qed.

(** X8: [pairs xs] lists the pairs of an item of [xs] and a later one: each
    choice of two positions gives one pair, the items in the order of the
    positions, and there are n (n - 1) / 2 of them. *)
Theorem pairs_are_ordered {A : Type} (xs : list A) :
  (forall x y, In (x, y) (pairs xs)
               <-> exists l1 l2 l3, xs = (l1 ++ x :: l2 ++ y :: l3)%list)
  /\ (2 * List.length (pairs xs)
      = List.length xs * (List.length xs - 1))%nat.
Proof.
  split; [|apply length_pairs].
  induction xs as [|a rest IH]; intros x y.
  - split; [intros [] |]. intros (l1 & l2 & l3 & H).
    destruct l1; discriminate.
  - rewrite in_pairs_cons, IH. split.
    + intros [[-> Hy] | (l1 & l2 & l3 & ->)].
      * apply in_split in Hy. destruct Hy as (l2 & l3 & ->).
        now exists [], l2, l3.
      * now exists (a :: l1), l2, l3.
    + intros (l1 & l2 & l3 & H). destruct l1 as [|b l1]; simpl in H.
      * injection H as <- ->. left. split; [reflexivity|].
        apply in_app_iff. right. now left.
      * injection H as <- ->. right. now exists l1, l2, l3.
Qed.

(** *** The anchors of the solver *)

Lemma find_first {A : Type} (f : A -> bool) (l : list A) (x : A) :
  find f l = Some x ->
  f x = true
  /\ exists before after,
       l = (before ++ x :: after)%list
       /\ forall y, In y before -> f y = false.
Proof.
  induction l as [|a l IH]; simpl; [discriminate|].
  destruct (f a) eqn:Ha.
  - intros [= <-]. split; [assumption|]. exists [], l. split; [reflexivity|].
    intros y [].
  - intros H. destruct (IH H) as (Hx & before & after & -> & Hb).
    split; [assumption|]. exists (a :: before), after.
    split; [reflexivity|]. intros y [<- | Hy]; auto.
Qed.

Section Anchors.

Context `{IP : IntervalProvider}.

Lemma find_noncommuting_gens_Ok (rho : Representation) (g h : string)
  (A B : Mat) :
  _find_noncommuting_gens rho = Ok ((g, h), (A, B)) ->
  A = rho_eval rho g /\ B = rho_eval rho h
  /\ contains_one (rho_eval rho (g ++ h ++ upper (g ++ h))) = false
  /\ exists before after,
       pairs (generators rho) = (before ++ (g, h) :: after)%list
       /\ forall g' h', In (g', h') before ->
            contains_one (rho_eval rho (g' ++ h' ++ upper (g' ++ h')))
            = true.
Proof.
  unfold _find_noncommuting_gens.
  destruct (find _ (pairs (generators rho))) as [[g0 h0]|] eqn:Hf;
    [|discriminate].
  intros [= -> -> <- <-]. apply find_first in Hf.
  destruct Hf as (Hgh & before & after & Hsplit & Hbefore).
  simpl in Hgh. apply negb_true_iff in Hgh. split_ands; auto.
  exists before, after. split; [assumption|].
  intros g' h' Hin. specialize (Hbefore _ Hin). simpl in Hbefore.
  now apply negb_false_iff in Hbefore.
Qed.

(** X9: [_find_noncommuting_gens] returns the first pair of generators, in
    the order of [pairs], whose commutator has an image that does not
    contain the identity, with the images of the two generators; it raises
    exactly when the image of every commutator contains the identity, as it
    does when there are fewer than two generators. *)
Theorem find_noncommuting_gens_first (rho : Representation) :
  (forall g h A B,
     _find_noncommuting_gens rho = Ok ((g, h), (A, B)) ->
     A = rho_eval rho g /\ B = rho_eval rho h
     /\ contains_one (rho_eval rho (g ++ h ++ upper (g ++ h))) = false
     /\ exists before after,
          pairs (generators rho) = (before ++ (g, h) :: after)%list
          /\ forall g' h', In (g', h') before ->
               contains_one (rho_eval rho (g' ++ h' ++ upper (g' ++ h')))
               = true)
  /\ (forall e,
        _find_noncommuting_gens rho = Raise e
        <-> e = NoNoncommutingGens
            /\ forall g h, In (g, h) (pairs (generators rho)) ->
                 contains_one (rho_eval rho (g ++ h ++ upper (g ++ h)))
                 = true)
  /\ ((List.length (generators rho) <= 1)%nat ->
      _find_noncommuting_gens rho = Raise NoNoncommutingGens).
Proof.
  split_ands.
  - apply find_noncommuting_gens_Ok.
  - intros e. unfold _find_noncommuting_gens.
    destruct (find _ (pairs (generators rho))) as [[g0 h0]|] eqn:Hf.
    + split; [discriminate|]. intros [_ Hall]. exfalso.
      apply find_some in Hf. destruct Hf as [Hin Hgh]. simpl in Hgh.
      rewrite (Hall _ _ Hin) in Hgh. discriminate.
    + split.
      * intros [= <-]. split; [reflexivity|]. intros g h Hin.
        pose proof (find_none _ _ Hf _ Hin) as H. simpl in H.
        now apply negb_false_iff in H.
      * now intros [-> _].
  - intros Hlen. unfold _find_noncommuting_gens.
    destruct (generators rho) as [|g [|h gens]];
      simpl in *; try reflexivity. lia.
Qed.

(** X10: a solver that [WordProblemSolver.__init__] has built comes from a
    manifold that passed [is_manifold] and whose holonomy was verified; its
    anchors are the images of the two generators it records, and it finds
    their commutator nontrivial.  With a manifold that passes, a holonomy
    that is not verified, an exception of the verification and the lack of
    a pair of anchors each raise their own exception. *)
Theorem WordProblemSolver_init_anchors (manifold : Manifold) (bits_prec : Z)
  (fundamental_group_args : list Z) :
  (forall solver,
     WordProblemSolver_init manifold bits_prec fundamental_group_args
     = Ok solver ->
     is_manifold manifold = true
     /\ verify_hyperbolicity manifold bits_prec fundamental_group_args
        = Ok (Some (rho solver))
     /\ noncommmuting_mats solver
        = (rho_eval (rho solver) (fst (noncommmuting_gens solver)),
           rho_eval (rho solver) (snd (noncommmuting_gens solver)))
     /\ In (noncommmuting_gens solver) (pairs (generators (rho solver)))
     /\ is_nontrivial solver
          (fst (noncommmuting_gens solver) ++ snd (noncommmuting_gens solver)
           ++ upper (fst (noncommmuting_gens solver)
                     ++ snd (noncommmuting_gens solver)))
        = Ok true)
  /\ (is_manifold manifold = true ->
      (verify_hyperbolicity manifold bits_prec fundamental_group_args
       = Ok None ->
       WordProblemSolver_init manifold bits_prec fundamental_group_args
       = Raise HolonomyNotVerified)
      /\ (forall e,
            verify_hyperbolicity manifold bits_prec fundamental_group_args
            = Raise e ->
            WordProblemSolver_init manifold bits_prec fundamental_group_args
            = Raise e)
      /\ (forall rho,
            verify_hyperbolicity manifold bits_prec fundamental_group_args
            = Ok (Some rho) ->
            _find_noncommuting_gens rho = Raise NoNoncommutingGens ->
            WordProblemSolver_init manifold bits_prec fundamental_group_args
            = Raise NoNoncommutingGens)).
Proof.
  unfold WordProblemSolver_init. split.
  - intros solver.
    destruct (is_manifold manifold); simpl; [|discriminate].
    destruct (verify_hyperbolicity manifold bits_prec fundamental_group_args)
      as [[r|]|]; simpl; try discriminate.
    destruct (_find_noncommuting_gens r) as [[[g h] [A B]]|] eqn:Hf; simpl;
      [|discriminate].
    intros [= <-]. simpl.
    destruct (find_noncommuting_gens_Ok r g h A B Hf)
      as (-> & -> & Hcomm & before & after & Hsplit & _).
    split_ands; auto.
    + rewrite Hsplit. apply in_app_iff. right. now left.
    + unfold is_nontrivial. simpl. now rewrite Hcomm.
  - intros ->. simpl. split_ands.
    + now intros ->.
    + now intros e ->.
    + intros r -> Hf. simpl. now rewrite Hf.
Qed.

End Anchors.

(** *** More on the filling coefficients *)

(** X11: [is_manifold] looks at each cusp on its own: the answer for a list of
    cusps is the conjunction of the answers for its parts, it does not
    depend on the order of the cusps, and an unfilled cusp changes
    nothing. *)
Theorem is_manifold_fillings_cuspwise (l1 l2 : list (Q * Q)) :
  is_manifold_fillings (l1 ++ l2)%list
  = is_manifold_fillings l1 && is_manifold_fillings l2
  /\ (Permutation l1 l2 -> is_manifold_fillings l1 = is_manifold_fillings l2)
  /\ is_manifold_fillings ((0, 0) :: l1) = is_manifold_fillings l1.
Proof.
  split_ands.
  - induction l1 as [|[a b] l1 IH]; simpl; [reflexivity|].
    destruct (ZZ a) as [a'|]; simpl; [|reflexivity].
    destruct (ZZ b) as [b'|]; simpl; [|reflexivity].
    destruct ((a' =? 0)%Z && (b' =? 0)%Z); [assumption|].
    destruct (Z.gcd a' b' =? 1)%Z; simpl; [assumption | reflexivity].
  - intros Hperm.
    destruct (is_manifold_fillings l1) eqn:H1,
             (is_manifold_fillings l2) eqn:H2; try reflexivity.
    + apply is_manifold_fillings_Forall in H1.
      apply (Permutation_Forall Hperm), is_manifold_fillings_Forall in H1.
      congruence.
    + apply is_manifold_fillings_Forall in H2.
      apply (Permutation_Forall (Permutation_sym Hperm)),
        is_manifold_fillings_Forall in H2.
      congruence.
  - reflexivity.
Qed.

(** *** The order of iteration over the edge labels *)

Section IterationOrder.

Context `{IP : IntervalProvider}.
Variable snappy_Manifold : string -> Manifold.



(** X13: what [all_nontrivial_edge_labels] does on labels that are not all
    nontrivial depends on that order: with a label the solver finds trivial
    and a label it cannot decide, it returns [False] when the first comes
    first and raises when the second does. *)
Theorem all_nontrivial_edge_labels_order (s1 s2 : list string -> list string)
  (solver : WordProblemSolver) (claims : list (list string * list string))
  (x y : string) (e : exn) :
  s1 (List.concat (paths_to_root claims)) = [x; y] ->
  s2 (List.concat (paths_to_root claims)) = [y; x] ->
  is_nontrivial solver x = Ok false ->
  is_nontrivial solver y = Raise e ->
  all_nontrivial_edge_labels s1 solver claims = Ok false
  /\ all_nontrivial_edge_labels s2 solver claims = Raise e.
Proof.
  intros Hs1 Hs2 Hx Hy. unfold all_nontrivial_edge_labels.
  rewrite Hs1, Hs2. simpl. rewrite Hx, Hy. simpl. auto.
Qed.

(** X14: [check_proof] raises before it looks at the claims when the solver
    cannot be built or when the generators or the relators of the
    representation are not those of the record. *)
Theorem check_proof_preconditions (set_iter : list string -> list string)
  (p : ProofRecord) :
  (forall e,
     WordProblemSolver_init (snappy_Manifold (name p)) 100 (group_args p)
     = Raise e ->
     check_proof set_iter snappy_Manifold p = Raise e)
  /\ (forall solver,
        WordProblemSolver_init (snappy_Manifold (name p)) 100 (group_args p)
        = Ok solver ->
        generators (rho solver) <> split "." (gens p)
        \/ relators (rho solver) <> rels p ->
        check_proof set_iter snappy_Manifold p = Raise AssertionError)
  /\ (is_manifold (snappy_Manifold (name p)) = false ->
      check_proof set_iter snappy_Manifold p = Raise UnsupportedTopology).
Proof.
  unfold check_proof. split_ands.
  - now intros e ->.
  - intros solver -> Hne. simpl. unfold list_string_eqb.
    destruct (list_eq_dec string_dec (generators (rho solver))
                (split "." (gens p))) as [Hg|Hg]; simpl; [|reflexivity].
    destruct (list_eq_dec string_dec (relators (rho solver)) (rels p))
      as [Hr|Hr]; simpl; [|reflexivity].
    exfalso. tauto.
  - intros H. unfold WordProblemSolver_init. now rewrite H.
Qed.

End IterationOrder.

(** X15: the claims [check_proof] obtains from the record have a path and
    an asserted word with at least one token each, and no token has a dot;
    joining the tokens of a string with dots gives the string back, and a
    string without a dot is its only token. *)
Theorem parse_claims_tokens (p : list (string * string)) :
  List.length (parse_claims p) = List.length p
  /\ (forall path word,
        In (path, word) (parse_claims p) ->
        path <> [] /\ word <> []
        /\ (forall t, In t path -> dot_free t = true)
        /\ (forall t, In t word -> dot_free t = true))
  /\ (forall s, String.concat "." (split "." s) = s)
  /\ (forall s, dot_free s = true -> split "." s = [s]).
Proof.
  split_ands.
  - unfold parse_claims. apply length_map.
  - intros path word Hin. unfold parse_claims in Hin.
    apply in_map_iff in Hin. destruct Hin as [[a b] [[= <- <-] _]]. simpl.
    split_ands; try apply split_not_nil; apply split_dot_free.
  - apply split_concat.
  - apply split_of_dot_free.
Qed.

Section SolverExceptions.

Context `{IP : IntervalProvider}.

(** X16: [is_nontrivial] raises only on a word whose image contains the
    identity, and then an [AssertionError] or the [ValueError] of
    insufficient precision: the first when the assertion of the Jorgensen
    test fails on the pair it is looking at, the second when a test returns
    [False]. *)
Theorem is_nontrivial_exceptions (self : WordProblemSolver) (w : string) :
  let X := rho_eval (rho self) w in
  let A := fst (noncommmuting_mats self) in
  let B := snd (noncommmuting_mats self) in
  (forall e, is_nontrivial self w = Raise e ->
             contains_one X = true
             /\ (e = AssertionError \/ e = PrecisionInsufficient))
  /\ (is_nontrivial self w = Raise AssertionError
      <-> contains_one X = true
          /\ (assertion_holds X A = false
              \/ (jorgensens_inequality_fails X A = Ok true
                  /\ assertion_holds X B = false)))
  /\ (is_nontrivial self w = Raise PrecisionInsufficient
      <-> contains_one X = true
          /\ (jorgensens_inequality_fails X A = Ok false
              \/ (jorgensens_inequality_fails X A = Ok true
                  /\ jorgensens_inequality_fails X B = Ok false))).
Proof.
  intros X A B. unfold is_nontrivial. fold X.
  destruct (noncommmuting_mats self) as [A' B']. simpl in A, B. subst A B.
  destruct (contains_one X); simpl.
  2: { split_ands.
       - discriminate.
       - split; [discriminate | intros [H _]; discriminate].
       - split; [discriminate | intros [H _]; discriminate]. }
  destruct (assertion_holds X A') eqn:HA.
  - rewrite (jorgensens_inequality_fails_asserted X A' HA).
    destruct (rif_lt_int (jorgensen_mu X A') 1); simpl.
    + destruct (assertion_holds X B') eqn:HB.
      * rewrite (jorgensens_inequality_fails_asserted X B' HB).
        destruct (rif_lt_int (jorgensen_mu X B') 1); simpl.
        -- split_ands; [discriminate | |];
             (split; [discriminate|]);
             intros [_ [H | [_ H]]]; discriminate.
        -- split_ands.
           ++ intros e [= <-]. auto.
           ++ split; [discriminate|].
              intros [_ [H | [_ H]]]; discriminate.
           ++ split; auto.
      * rewrite (jorgensens_inequality_fails_unasserted X B' HB). simpl.
        split_ands.
        -- intros e [= <-]. auto.
        -- split; auto.
        -- split; [discriminate|].
           intros [_ [H | [_ H]]]; discriminate.
    + split_ands.
      * intros e [= <-]. auto.
      * split; [discriminate|]. intros [_ [H | [H _]]]; discriminate.
      * split; auto.
  - rewrite (jorgensens_inequality_fails_unasserted X A' HA). simpl.
    split_ands.
    + intros e [= <-]. auto.
    + split; auto.
    + split; [discriminate|]. intros [_ [H | [H _]]]; discriminate.
Qed.

End SolverExceptions.

(** ** The further properties on examples *)

Section FurtherExamples.

Import QIntervals.

(** The first sample proof is accepted: its three paths are distinct, not
    empty, and none continues another. *)
Lemma tree_ok_accepted_paths_sample1 :
  tree_ok sample1_claims = Ok true
  /\ sample1_claims <> []
  /\ (forall path, In path (paths_to_root sample1_claims) -> path <> [])
  /\ NoDup (paths_to_root sample1_claims)
  /\ (forall p g rest,
        In p (paths_to_root sample1_claims) ->
        ~ In (p ++ g :: rest)%list (paths_to_root sample1_claims)).
Proof.
  split; [reflexivity|].
  apply (tree_ok_accepted_paths sample1_claims). reflexivity.
Defined.

(** In the first sample proof the node "1.a" is not a leaf: it has one edge
    in and the two edges out labelled "b" and "B". *)
Lemma tree_ok_accepted_nodes_sample1 :
  tree_ok sample1_claims = Ok true
  /\ In "1.a" (nx.nodes (fst (build_tree (paths_to_root sample1_claims))))
  /\ ~ In "1.a" (snd (build_tree (paths_to_root sample1_claims)))
  /\ nx.in_degree (fst (build_tree (paths_to_root sample1_claims))) "1.a"
     = 1%nat
  /\ exists w0,
       nx.adj_labels (fst (build_tree (paths_to_root sample1_claims))) "1.a"
       = [w0; invert_word w0]
       /\ nx.successors (fst (build_tree (paths_to_root sample1_claims)))
            "1.a"
          = ["1.a" ++ "." ++ w0; "1.a" ++ "." ++ invert_word w0].
Proof.
  assert (Hok : tree_ok sample1_claims = Ok true) by reflexivity.
  assert (Hin : In "1.a"
                  (nx.nodes (fst (build_tree (paths_to_root sample1_claims)))))
    by (apply (proj1 (mem_In _ _)); vm_compute; reflexivity).
  assert (Hnot : ~ In "1.a" (snd (build_tree (paths_to_root sample1_claims))))
    by (apply (proj1 (mem_false_not_In _ _)); vm_compute; reflexivity).
  split; [exact Hok|]. split; [exact Hin|]. split; [exact Hnot|].
  exact (proj2 (tree_ok_accepted_nodes sample1_claims Hok "1.a" Hin) Hnot).
Defined.

(** The first sample proof has three claims: six nodes, five edges, four
    leaves with the root, two other nodes. *)
Lemma tree_ok_accepted_size_sample1 :
  tree_ok sample1_claims = Ok true
  /\ List.length (nx.nodes (fst (build_tree (paths_to_root sample1_claims))))
     = 6%nat
  /\ List.length (nx.edges (fst (build_tree (paths_to_root sample1_claims))))
     = 5%nat.
Proof.
  assert (Hok : tree_ok sample1_claims = Ok true) by reflexivity.
  split; [exact Hok|].
  destruct (tree_ok_accepted_size sample1_claims Hok) as (Hn & He & _).
  split; [exact Hn | exact He].
Defined.

(** The solver built on the free group with generators known up to 1/1000
    has the two generators as anchors and finds "abAB" nontrivial. *)
Lemma WordProblemSolver_init_anchors_example :
  WordProblemSolver_init (free_manifold (1 # 1000) []) 100 [1; 1; 0]%Z
  = Ok (free_solver (1 # 1000))
  /\ is_nontrivial (free_solver (1 # 1000)) "abAB" = Ok true.
Proof.
  assert (Hinit : WordProblemSolver_init (free_manifold (1 # 1000) []) 100
                    [1; 1; 0]%Z = Ok (free_solver (1 # 1000)))
    by reflexivity.
  split; [exact Hinit|].
  destruct (proj1 (WordProblemSolver_init_anchors
                     (free_manifold (1 # 1000) []) 100 [1; 1; 0]%Z)
              (free_solver (1 # 1000)) Hinit) as (_ & _ & _ & _ & H).
  exact H.
Defined.



(** With the generators known up to 1/100 and the two edge labels "" and
    "aA", the stage of the edge labels returns [False] in one order and
    raises in the other. *)
Lemma all_nontrivial_edge_labels_order_example :
  all_nontrivial_edge_labels listed_once (free_solver (1 # 100))
    [([EmptyString; "aA"], [])] = Ok false
  /\ all_nontrivial_edge_labels (fun xs => rev (listed_once xs))
       (free_solver (1 # 100)) [([EmptyString; "aA"], [])]
     = Raise PrecisionInsufficient.
Proof.
  apply (all_nontrivial_edge_labels_order
           listed_once (fun xs => rev (listed_once xs))
           (free_solver (1 # 100)) [([EmptyString; "aA"], [])]
           EmptyString "aA" PrecisionInsufficient);
    vm_compute; reflexivity.
Defined.

End FurtherExamples.
